(** * Isolation game agent: evaluators, minimax, alpha-beta, iterative deepening

    A shallow embedding of [game_agent.py].  Python floats are the kernel's
    binary64 floats; the board ([isolation.Board]) is an interface the agent
    only queries; the timer is the sequence of readings that successive calls
    of [time_left()] return; exceptions are explicit outcomes. *)

From Stdlib Require Import String.
From Stdlib Require Import ZArith List Bool Lia Floats PeanoNat ZifyBool.
Import ListNotations.

Local Open Scope Z_scope.

(* 0.1 is written as in the source; it denotes the nearest binary64. *)
#[local] Set Warnings "-inexact-float".

(** ** Python values *)

(** A move is a [(row, col)] tuple of ints. *)
Definition Move : Type := (Z * Z)%type.

(** The tuple [(-1, -1)] that [get_move] returns when there is nothing to play. *)
Definition no_move : Move := (-1, -1).

Definition Move_eqb (a b : Move) : bool :=
  (fst a =? fst b) && (snd a =? snd b).

(** [float(n)] for a Python int: the nearest binary64, ties to even. *)
Definition float_of_int (n : Z) : float :=
  SF2Prim (binary_normalize prec emax n 0 false).

(** [float("inf")] and [float("-inf")]. *)
Definition inf : float := infinity.
Definition neg_inf : float := neg_infinity.

(** Python's [a > b] and [a >= b] on floats are [b < a] and [b <= a]. *)
Definition gtb (a b : float) : bool := (b <? a)%float.
Definition geb (a b : float) : bool := (b <=? a)%float.

(** [max([a, b])] and [min([a, b])]: the builtin keeps its first argument
    unless a later one is strictly better. *)
Definition py_max2 (a b : float) : float := if gtb b a then b else a.
Definition py_min2 (a b : float) : float := if (b <? a)%float then b else a.

(** [x != 0] on a float. *)
Definition nonzero (x : float) : bool := negb (x =? 0)%float.

(** *** The order of floats

    A binary64 that is not NaN has a rank: an integer that grows with the
    float, the same for both zeros.  NaN has no place in the order. *)
Definition SFnan (x : spec_float) : bool :=
  match x with S754_nan => true | _ => false end.

Definition SFrank (x : spec_float) : Z :=
  match x with
  | S754_zero _ => 0
  | S754_infinity true => - 2 ^ 65
  | S754_infinity false => 2 ^ 65
  | S754_nan => 0
  | S754_finite false m e => (e + 1075) * 2 ^ 53 + Zpos m
  | S754_finite true m e => - ((e + 1075) * 2 ^ 53 + Zpos m)
  end.

Definition fnan (x : float) : bool := SFnan (Prim2SF x).
Definition rank (x : float) : Z := SFrank (Prim2SF x).

(** ** The board interface

    What the agent calls on an [isolation.Board]; [Player] is the type of the
    player objects used as identities. *)
Class BoardAPI (Board Player : Type) : Type := {
  width : Board -> Z;
  height : Board -> Z;
  active_player : Board -> Player;
  inactive_player : Board -> Player;
  get_opponent : Board -> Player -> Player;
  get_legal_moves : Board -> Player -> list Move;
  forecast_move : Board -> Move -> Board;
  is_winner : Board -> Player -> bool;
  is_loser : Board -> Player -> bool;
  utility : Board -> Player -> float;
  get_player_location : Board -> Player -> Move;
  last_player_move : Board -> Player -> Move
}.

(** ** Exceptions and the timer *)

Inductive Exn : Type := Timeout | IndexError.

Inductive Outcome (A : Type) : Type :=
| Return (a : A)
| Raise (e : Exn).
Arguments Return {A} a.
Arguments Raise {A} e.

(** A search computation: started when [time_left] has been called [k] times,
    it ends with an outcome and the new number of calls. *)
Definition Search (A : Type) : Type := nat -> Outcome A * nat.

(** [random.choice(seq)] with the draw [r]: an element of [seq], and
    [IndexError] on an empty sequence. *)
Definition random_choice {A : Type} (r : nat) (seq : list A) : option A :=
  match seq with
  | [] => None
  | _ => nth_error seq (r mod length seq)%nat
  end.

Section Agent.

Context {Board Player : Type} `{BoardAPI Board Player}.

(** ** Evaluators *)

Definition len (l : list Move) : Z := Z.of_nat (length l).

Definition attacking_score (game : Board) (player : Player) : float :=
  if is_loser game player then neg_inf
  else if is_winner game player then inf
  else float_of_int (- len (get_legal_moves game (get_opponent game player))).

Definition deeper_score (game : Board) (player : Player) : float :=
  if is_loser game player then neg_inf
  else if is_winner game player then inf
  else
    float_of_int
      (fold_left
         (fun score move =>
            let score := score + len (get_legal_moves (forecast_move game move) player) in
            score - len (get_legal_moves (forecast_move game move)
                           (get_opponent (forecast_move game move) player)))
         (get_legal_moves game player) 0).

Definition custom_score (game : Board) (player : Player) : float :=
  if is_loser game player then neg_inf
  else if is_winner game player then inf
  else
    let score := len (get_legal_moves game player)
                 - len (get_legal_moves game (get_opponent game player)) in
    let center_x := (float_of_int (width game) / 2)%float in
    let center_y := (float_of_int (height game) / 2)%float in
    let '(row, col) := get_player_location game player in
    let score := (float_of_int score - abs (float_of_int row - center_x) * 0.1)%float in
    let score := (score - abs (float_of_int col - center_y) * 0.1)%float in
    score.

(** ** The player *)

(** [search_depth] is a natural number: the constructor documents a strictly
    positive integer, and iterative deepening counts up from 0.  [time_left]
    is assigned by [get_move]; [self] is the player object as the board
    knows it. *)
Record CustomPlayer : Type := {
  search_depth : nat;
  score : Board -> Player -> float;
  iterative : bool;
  method : string;
  time_left : nat -> float;
  TIMER_THRESHOLD : float;
  self : Player
}.

Definition set_time_left (p : CustomPlayer) (tl : nat -> float) : CustomPlayer :=
  {| search_depth := search_depth p; score := score p; iterative := iterative p;
     method := method p; time_left := tl; TIMER_THRESHOLD := TIMER_THRESHOLD p;
     self := self p |}.

(** [if self.time_left() < self.TIMER_THRESHOLD: raise Timeout()] *)
Definition out_of_time (p : CustomPlayer) (k : nat) : bool :=
  (time_left p k <? TIMER_THRESHOLD p)%float.

(** The value both searches return at the depth limit or at a finished game. *)
Definition leaf (p : CustomPlayer) (game : Board) : float * Move :=
  (score p game (self p), last_player_move game (inactive_player game)).

(** ** minimax *)

(** The [for move in game.get_legal_moves()] loop of a maximizing layer;
    [child move] is the recursive call on [game.forecast_move(move)]. *)
Fixpoint minimax_max (child : Move -> Search (float * Move)) (moves : list Move)
    (best_score : float) (best_move : Move) : Search (float * Move) :=
  fun k =>
    match moves with
    | [] => (Return (best_score, best_move), k)
    | move :: rest =>
        match child move k with
        | (Raise e, k') => (Raise e, k')
        | (Return (score, new_move), k') =>
            if gtb score best_score
            then minimax_max child rest score move k'
            else minimax_max child rest best_score best_move k'
        end
    end.

(** The same loop on a minimizing layer. *)
Fixpoint minimax_min (child : Move -> Search (float * Move)) (moves : list Move)
    (best_score : float) (best_move : Move) : Search (float * Move) :=
  fun k =>
    match moves with
    | [] => (Return (best_score, best_move), k)
    | move :: rest =>
        match child move k with
        | (Raise e, k') => (Raise e, k')
        | (Return (score, new_move), k') =>
            if (score <? best_score)%float
            then minimax_min child rest score move k'
            else minimax_min child rest best_score best_move k'
        end
    end.

Fixpoint minimax (p : CustomPlayer) (depth : nat) (game : Board)
    (maximizing_player : bool) : Search (float * Move) :=
  fun k =>
    if out_of_time p k then (Raise Timeout, S k)
    else
      let k := S k in
      match depth with
      | O => (Return (leaf p game), k)
      | S depth' =>
          if nonzero (utility game (self p)) then (Return (leaf p game), k)
          else
            match get_legal_moves game (active_player game) with
            | [] => (Raise IndexError, k)
            | best_move :: _ =>
                let child move :=
                  minimax p depth' (forecast_move game move) (negb maximizing_player) in
                if maximizing_player
                then minimax_max child (get_legal_moves game (active_player game))
                       neg_inf best_move k
                else minimax_min child (get_legal_moves game (active_player game))
                       inf best_move k
            end
      end.

(** ** alphabeta *)

Fixpoint alphabeta_max (child : float -> float -> Move -> Search (float * Move))
    (moves : list Move) (alpha beta : float)
    (best_score : float) (best_move : Move) : Search (float * Move) :=
  fun k =>
    match moves with
    | [] => (Return (best_score, best_move), k)
    | move :: rest =>
        match child alpha beta move k with
        | (Raise e, k') => (Raise e, k')
        | (Return (score, new_move), k') =>
            let '(best_score, best_move) :=
              if gtb score best_score then (score, move) else (best_score, best_move) in
            if geb best_score beta then (Return (best_score, best_move), k')
            else alphabeta_max child rest (py_max2 alpha best_score) beta
                   best_score best_move k'
        end
    end.

Fixpoint alphabeta_min (child : float -> float -> Move -> Search (float * Move))
    (moves : list Move) (alpha beta : float)
    (best_score : float) (best_move : Move) : Search (float * Move) :=
  fun k =>
    match moves with
    | [] => (Return (best_score, best_move), k)
    | move :: rest =>
        match child alpha beta move k with
        | (Raise e, k') => (Raise e, k')
        | (Return (score, new_move), k') =>
            let '(best_score, best_move) :=
              if (score <? best_score)%float then (score, move)
              else (best_score, best_move) in
            if (best_score <=? alpha)%float then (Return (best_score, best_move), k')
            else alphabeta_min child rest alpha (py_min2 beta best_score)
                   best_score best_move k'
        end
    end.

Fixpoint alphabeta (p : CustomPlayer) (depth : nat) (game : Board)
    (alpha beta : float) (maximizing_player : bool) : Search (float * Move) :=
  fun k =>
    if out_of_time p k then (Raise Timeout, S k)
    else
      let k := S k in
      match depth with
      | O => (Return (leaf p game), k)
      | S depth' =>
          if nonzero (utility game (self p)) then (Return (leaf p game), k)
          else
            match get_legal_moves game (active_player game) with
            | [] => (Raise IndexError, k)
            | best_move :: _ =>
                let child alpha beta move :=
                  alphabeta p depth' (forecast_move game move) alpha beta
                    (negb maximizing_player) in
                if maximizing_player
                then alphabeta_max child (get_legal_moves game (active_player game))
                       alpha beta neg_inf best_move k
                else alphabeta_min child (get_legal_moves game (active_player game))
                       alpha beta inf best_move k
            end
      end.

(** ** get_move *)

(** State of the [try] body: the exception in flight (if any), the current
    value of [best_move], and the timer position. *)
Definition TryState : Type := (option Exn * Move * nat)%type.

(** [score, best_move = <search call>]: the assignment happens only when the
    call returns. *)
Definition assign_best (r : Outcome (float * Move) * nat) (best_move : Move) : TryState :=
  match r with
  | (Return (_, m), k) => (None, m, k)
  | (Raise e, k) => (Some e, best_move, k)
  end.

(** The two [if self.method == ...] statements, at search depth [depth]. *)
Definition search_by_method (p : CustomPlayer) (game : Board) (depth : nat)
    (best_move : Move) (k : nat) : TryState :=
  let '(e, best_move, k) :=
    if String.eqb (method p) "minimax"
    then assign_best (minimax p depth game true k) best_move
    else (None, best_move, k) in
  match e with
  | Some _ => (e, best_move, k)
  | None =>
      if String.eqb (method p) "alphabeta"
      then assign_best (alphabeta p depth game neg_inf inf true k) best_move
      else (None, best_move, k)
  end.

(** [except Timeout: return best_move]; any other exception escapes. *)
Definition on_exception (e : Exn) (best_move : Move) : Outcome Move :=
  match e with
  | Timeout => Return best_move
  | _ => Raise e
  end.

(** The [while True] loop of iterative deepening; [None] when [fuel]
    iterations were not enough for it to end. *)
Fixpoint deepen (fuel : nat) (p : CustomPlayer) (game : Board) (depth : nat)
    (best_move : Move) (k : nat) : option (Outcome Move * nat) :=
  match fuel with
  | O => None
  | S fuel' =>
      match search_by_method p game depth best_move k with
      | (Some e, best_move, k') => Some (on_exception e best_move, k')
      | (None, best_move, k') => deepen fuel' p game (S depth) best_move k'
      end
  end.

(** [get_move(self, game, legal_moves, time_left)]; [rnd] is the draw of
    [random.choice].  The result carries the number of [time_left()] calls. *)
Definition get_move (fuel : nat) (p : CustomPlayer) (game : Board)
    (legal_moves : list Move) (tl : nat -> float) (rnd : nat)
    : option (Outcome Move * nat) :=
  let p := set_time_left p tl in
  if (length legal_moves =? 0)%nat then Some (Return no_move, O)
  else
    match random_choice rnd (get_legal_moves game (active_player game)) with
    | None => Some (Raise IndexError, O)
    | Some best_move =>
        if iterative p then deepen fuel p game O best_move O
        else
          match search_by_method p game (search_depth p) best_move O with
          | (Some e, best_move, k) => Some (on_exception e best_move, k)
          | (None, best_move, k) => Some (Return best_move, k)
          end
    end.

End Agent.

Arguments CustomPlayer Board Player : clear implicits.

(** ** Relations used to state the facts *)

(** What a pruned search may return for a node whose exhaustive search
    returns [exact]: the same pair, or a score on the same side of the window
    as the exact one.  At an infinite bound the move is the same as well. *)
Definition same_or_outside (alpha beta : float) (exact pruned : float * Move) : Prop :=
  pruned = exact
  \/ ((fst exact <=? alpha)%float = true /\ (fst pruned <=? alpha)%float = true
      /\ (alpha = neg_inf -> snd pruned = snd exact))
  \/ ((beta <=? fst exact)%float = true /\ (beta <=? fst pruned)%float = true
      /\ (beta = inf -> snd pruned = snd exact)).

(** Both searches return, the pruned one after no more timer readings than
    the exhaustive one, with related results. *)
Definition prunes (alpha beta : float) (mm ab : Search (float * Move)) : Prop :=
  forall k k2, exists x y k' k2',
    mm k = (Return x, k') /\ ab k2 = (Return y, k2')
    /\ same_or_outside alpha beta x y
    /\ (k <= k' /\ k2 <= k2' /\ k2' - k2 <= k' - k)%nat.

(** No reading of the timer from call [k] up to, not including, call [k']
    is under the threshold. *)
Definition clean {Board Player : Type} (p : CustomPlayer Board Player) (k k' : nat) : Prop :=
  forall j, (k <= j)%nat -> (j < k')%nat -> out_of_time p j = false.

(** How a computation that ends after [k'] readings with outcome [r] used the
    timer: it raised [Timeout] right after a reading under the threshold, the
    first such reading since [k]; with any other outcome no reading was under
    the threshold. *)
Definition traced {Board Player : Type} {A : Type} (p : CustomPlayer Board Player)
    (k : nat) (res : Outcome A * nat) : Prop :=
  let '(r, k') := res in
  (k <= k')%nat
  /\ match r with
     | Raise Timeout => (k < k')%nat /\ clean p k (k' - 1) /\ out_of_time p (k' - 1) = true
     | _ => clean p k k'
     end.


(** The search call that [get_move] makes for a player whose method is one
    of the two searches. *)
Definition search_call {Board Player : Type} `{BoardAPI Board Player}
    (p : CustomPlayer Board Player) (game : Board) (depth : nat) : Search (float * Move) :=
  if String.eqb (method p) "minimax" then minimax p depth game true
  else alphabeta p depth game neg_inf inf true.

(** The claimed value of [custom_score] away from finished games: mobility
    difference, less 0.1 times the distance of the row from half the height
    and of the column from half the width. *)
Definition center_mobility {Board Player : Type} `{BoardAPI Board Player}
    (game : Board) (player : Player) : float :=
  let mobility := len (get_legal_moves game player)
                  - len (get_legal_moves game (get_opponent game player)) in
  let '(row, col) := get_player_location game player in
  (float_of_int mobility
   - abs (float_of_int row - float_of_int (height game) / 2) * 0.1
   - abs (float_of_int col - float_of_int (width game) / 2) * 0.1)%float.

(** [f2], run under the timer of [q], repeats every run of [f] that did not
    time out, wherever its own readings stay over the threshold: same
    outcome, same number of readings. *)
Definition repeats {Board Player : Type} {A : Type} (q : CustomPlayer Board Player)
    (f f2 : Search A) : Prop :=
  forall k r k', f k = (r, k') -> r <> Raise Timeout ->
    (k <= k')%nat
    /\ forall k2, clean q k2 (k2 + (k' - k)) -> f2 k2 = (r, (k2 + (k' - k))%nat).

(** The score of a search result; NaN stands for an exception. *)
Definition returned_score (res : Outcome (float * Move) * nat) : float :=
  match fst res with
  | Return (v, _) => v
  | Raise _ => nan
  end.

(** ** A board given by its observations

    A finite game tree whose nodes record what the board answers to the
    queries of the agent: legal moves in a fixed order, the cell each player
    last moved to, the extent of the board, and the position after each
    move. *)
Module Tree.

Inductive Side : Type := Us | Them.

Definition other (s : Side) : Side :=
  match s with Us => Them | Them => Us end.

Definition Side_eqb (a b : Side) : bool :=
  match a, b with Us, Us | Them, Them => true | _, _ => false end.

(** What one player sees: the legal moves, and the cell last moved to (which is
    also the player's location). *)
Record View : Type := {
  v_moves : list Move;
  v_at : Move
}.

(** [via] is the move that produced the position. *)
#[local] Unset Elimination Schemes.
Inductive Position : Type :=
| Node (via : Move) (w h : Z) (active : Side) (us them : View) (next : list Position).

#[local] Set Elimination Schemes.

Definition p_via (g : Position) : Move := let 'Node m _ _ _ _ _ _ := g in m.
Definition p_width (g : Position) : Z := let 'Node _ w _ _ _ _ _ := g in w.
Definition p_height (g : Position) : Z := let 'Node _ _ h _ _ _ _ := g in h.
Definition p_active (g : Position) : Side := let 'Node _ _ _ a _ _ _ := g in a.
Definition p_view (g : Position) (s : Side) : View :=
  let 'Node _ _ _ _ u t _ := g in match s with Us => u | Them => t end.
Definition p_next (g : Position) : list Position :=
  let 'Node _ _ _ _ _ _ n := g in n.

Definition lookup (m : Move) (l : list Position) : option Position :=
  find (fun g => Move_eqb m (p_via g)) l.

(** Modelled from the spec: [isolation.Board] is not among the sources.  The
    player to move has lost when it has no legal move, the other player has
    then won, and utility is non-zero (-inf for the loser, +inf for the
    winner) exactly at such a position. *)
Definition p_is_loser (g : Position) (s : Side) : bool :=
  Side_eqb s (p_active g) && (length (v_moves (p_view g (p_active g))) =? 0)%nat.
Definition p_is_winner (g : Position) (s : Side) : bool :=
  Side_eqb s (other (p_active g)) && (length (v_moves (p_view g (p_active g))) =? 0)%nat.
Definition p_utility (g : Position) (s : Side) : float :=
  if p_is_loser g s then neg_inf else if p_is_winner g s then inf else 0%float.

(** Modelled from the spec: the operations of the Game State interface, read
    off the tree.  A move with no recorded successor leaves the position as it
    is. *)
#[export] Instance api : BoardAPI Position Side := {
  width := p_width;
  height := p_height;
  active_player := p_active;
  inactive_player g := other (p_active g);
  get_opponent _ s := other s;
  get_legal_moves g s := v_moves (p_view g s);
  forecast_move g m := match lookup m (p_next g) with Some g' => g' | None => g end;
  is_winner := p_is_winner;
  is_loser := p_is_loser;
  utility := p_utility;
  get_player_location g s := v_at (p_view g s);
  last_player_move g s := v_at (p_view g s)
}.

(** A timer that reads [hi] for the first [n] calls and [lo] afterwards. *)
Definition timer (n : nat) (hi lo : float) : nat -> float :=
  fun k => if (k <? n)%nat then hi else lo.

Definition player (depth : nat) (it : bool) (m : string) : CustomPlayer Position Side :=
  {| search_depth := depth; score := custom_score; iterative := it; method := m;
     time_left := fun _ => 0%float; TIMER_THRESHOLD := 10%float; self := Us |}.

(** The knight-move game on a 3x3 board once both players are placed: we
    stand on (0,0) and are to move, the opponent on (1,2), so our only legal
    move is (2,1).  Every later position has a single legal move too, and the
    game ends at [corner_6] where we are to move and have none. *)
Definition corner_6 : Position :=
  Node (2, 2) 3 3 Us {| v_moves := []; v_at := (1, 0) |}
                     {| v_moves := []; v_at := (2, 2) |} [].
Definition corner_5 : Position :=
  Node (1, 0) 3 3 Them {| v_moves := [(2, 2)]; v_at := (1, 0) |}
                       {| v_moves := [(2, 2)]; v_at := (0, 1) |} [corner_6].
Definition corner_4 : Position :=
  Node (0, 1) 3 3 Us {| v_moves := [(1, 0)]; v_at := (0, 2) |}
                     {| v_moves := [(2, 2)]; v_at := (0, 1) |} [corner_5].
Definition corner_3 : Position :=
  Node (0, 2) 3 3 Them {| v_moves := [(1, 0)]; v_at := (0, 2) |}
                       {| v_moves := [(0, 1)]; v_at := (2, 0) |} [corner_4].
Definition corner_2 : Position :=
  Node (2, 0) 3 3 Us {| v_moves := [(0, 2)]; v_at := (2, 1) |}
                     {| v_moves := [(0, 1)]; v_at := (2, 0) |} [corner_3].
Definition corner_1 : Position :=
  Node (2, 1) 3 3 Them {| v_moves := [(0, 2)]; v_at := (2, 1) |}
                       {| v_moves := [(2, 0)]; v_at := (1, 2) |} [corner_2].
Definition corner : Position :=
  Node (1, 2) 3 3 Us {| v_moves := [(2, 1)]; v_at := (0, 0) |}
                     {| v_moves := [(2, 0)]; v_at := (1, 2) |} [corner_1].

(** A 7-row, 3-column board: we stand on (5,1) with the knight moves (3,0)
    and (3,2); the opponent stands on (0,0) with (1,2) and (2,1). *)
Definition tall : Position :=
  Node (0, 0) 3 7 Us {| v_moves := [(3, 0); (3, 2)]; v_at := (5, 1) |}
                     {| v_moves := [(1, 2); (2, 1)]; v_at := (0, 0) |} [].

(** Two plies of the knight-move game on a 7x7 board: we stand on (0,0), the
    opponent on (6,6); our moves (1,2) and (2,1) are each answered by (4,5)
    or (5,4). *)
Definition from_1_2 : list Move := [(0, 4); (2, 0); (2, 4); (3, 1); (3, 3)].
Definition from_2_1 : list Move := [(0, 2); (1, 3); (3, 3); (4, 0); (4, 2)].
Definition from_4_5 : list Move := [(2, 4); (2, 6); (3, 3); (5, 3); (6, 4)].
Definition from_5_4 : list Move := [(3, 3); (3, 5); (4, 2); (4, 6); (6, 2)].
Definition fork_a1 : Position :=
  Node (4, 5) 7 7 Us {| v_moves := from_1_2; v_at := (1, 2) |}
                     {| v_moves := from_4_5; v_at := (4, 5) |} [].
Definition fork_a2 : Position :=
  Node (5, 4) 7 7 Us {| v_moves := from_1_2; v_at := (1, 2) |}
                     {| v_moves := from_5_4; v_at := (5, 4) |} [].
Definition fork_b1 : Position :=
  Node (4, 5) 7 7 Us {| v_moves := from_2_1; v_at := (2, 1) |}
                     {| v_moves := from_4_5; v_at := (4, 5) |} [].
Definition fork_b2 : Position :=
  Node (5, 4) 7 7 Us {| v_moves := from_2_1; v_at := (2, 1) |}
                     {| v_moves := from_5_4; v_at := (5, 4) |} [].
Definition fork_a : Position :=
  Node (1, 2) 7 7 Them {| v_moves := from_1_2; v_at := (1, 2) |}
                       {| v_moves := [(4, 5); (5, 4)]; v_at := (6, 6) |}
    [fork_a1; fork_a2].
Definition fork_b : Position :=
  Node (2, 1) 7 7 Them {| v_moves := from_2_1; v_at := (2, 1) |}
                       {| v_moves := [(4, 5); (5, 4)]; v_at := (6, 6) |}
    [fork_b1; fork_b2].
Definition fork : Position :=
  Node (6, 6) 7 7 Us {| v_moves := [(1, 2); (2, 1)]; v_at := (0, 0) |}
                     {| v_moves := [(4, 5); (5, 4)]; v_at := (6, 6) |}
    [fork_a; fork_b].

(** A player with an unbounded budget. *)
Definition patient (depth : nat) (it : bool) (m : string) : CustomPlayer Position Side :=
  set_time_left (player depth it m) (fun _ => 100%float).

End Tree.

(** * Facts *)

(** ** Float comparisons *)

Lemma digits2_pos_bound (m : positive) : Zpos m < 2 ^ Zpos (digits2_pos m).
Proof.
  induction m as [m IH | m IH | ]; simpl digits2_pos;
    rewrite ?Pos2Z.inj_succ, ?Z.pow_succ_r by lia; lia.
Qed.

Lemma valid_finite_bounds s m e :
  valid_binary (S754_finite s m e) = true ->
  -1074 <= e <= 971 /\ 0 < Zpos m < 2 ^ 53.
Proof.
  unfold valid_binary, SpecFloat.valid_binary, bounded, canonical_mantissa, fexp, emin, prec, emax.
  intros Hv. apply andb_prop in Hv. destruct Hv as [Hc He].
  apply Z.eqb_eq in Hc. apply Z.leb_le in He.
  pose proof (digits2_pos_bound m) as Hm.
  assert (Hd : Zpos (digits2_pos m) <= 53) by lia.
  assert (2 ^ Zpos (digits2_pos m) <= 2 ^ 53) by (apply Z.pow_le_mono_r; lia).
  lia.
Qed.

Lemma SFltb_rank x y :
  valid_binary x = true -> valid_binary y = true ->
  SFltb x y = negb (SFnan x) && negb (SFnan y) && (SFrank x <? SFrank y).
Proof.
  intros Hx Hy.
  destruct x as [[]|[]| |sx m1 e1], y as [[]|[]| |sy m2 e2]; try reflexivity;
  try (apply valid_finite_bounds in Hx); try (apply valid_finite_bounds in Hy);
  unfold SFltb, SFcompare, SFrank, SFnan;
  change (2 ^ 65) with 36893488147419103232 in *;
  change (2 ^ 53) with 9007199254740992 in *;
  try (destruct sx); try (destruct sy); try lia;
  destruct (Z.compare_spec e1 e2); try lia;
  rewrite ?Pos.compare_cont_spec; simpl;
  destruct (Pos.compare_spec m1 m2); simpl; lia.
Qed.

Lemma SFleb_rank x y :
  valid_binary x = true -> valid_binary y = true ->
  SFleb x y = negb (SFnan x) && negb (SFnan y) && (SFrank x <=? SFrank y).
Proof.
  intros Hx Hy.
  destruct x as [[]|[]| |sx m1 e1], y as [[]|[]| |sy m2 e2]; try reflexivity;
  try (apply valid_finite_bounds in Hx); try (apply valid_finite_bounds in Hy);
  unfold SFleb, SFcompare, SFrank, SFnan;
  change (2 ^ 65) with 36893488147419103232 in *;
  change (2 ^ 53) with 9007199254740992 in *;
  try (destruct sx); try (destruct sy); try lia;
  destruct (Z.compare_spec e1 e2); try lia;
  rewrite ?Pos.compare_cont_spec; simpl;
  destruct (Pos.compare_spec m1 m2); simpl; lia.
Qed.

Lemma ltb_rank (x y : float) :
  (x <? y)%float = negb (fnan x) && negb (fnan y) && (rank x <? rank y).
Proof. rewrite ltb_spec. apply SFltb_rank; apply Prim2SF_valid. Qed.

Lemma leb_rank (x y : float) :
  (x <=? y)%float = negb (fnan x) && negb (fnan y) && (rank x <=? rank y).
Proof. rewrite leb_spec. apply SFleb_rank; apply Prim2SF_valid. Qed.

Lemma SFrank_range x :
  valid_binary x = true ->
  - 2 ^ 65 <= SFrank x <= 2 ^ 65
  /\ (SFnan x = false -> SFrank x = 2 ^ 65 -> x = S754_infinity false)
  /\ (SFnan x = false -> SFrank x = - 2 ^ 65 -> x = S754_infinity true).
Proof.
  intros Hx. destruct x as [[]|[]| |[] m e];
  try (apply valid_finite_bounds in Hx); unfold SFrank, SFnan;
  change (2 ^ 65) with 36893488147419103232 in *;
  change (2 ^ 53) with 9007199254740992 in *;
  repeat split; intros; try reflexivity; try discriminate; try lia.
Qed.

Lemma rank_range (x : float) : - 2 ^ 65 <= rank x <= 2 ^ 65.
Proof. apply SFrank_range, Prim2SF_valid. Qed.

Lemma rank_inf : rank inf = 2 ^ 65.
Proof. reflexivity. Qed.

Lemma rank_neg_inf : rank neg_inf = - 2 ^ 65.
Proof. reflexivity. Qed.

Lemma fnan_inf : fnan inf = false.
Proof. reflexivity. Qed.

Lemma fnan_neg_inf : fnan neg_inf = false.
Proof. reflexivity. Qed.

Lemma top_is_inf (x : float) : fnan x = false -> rank x = 2 ^ 65 -> x = inf.
Proof.
  intros Hn Hr. rewrite <- (SF2Prim_Prim2SF x).
  destruct (SFrank_range (Prim2SF x) (Prim2SF_valid x)) as (_ & Ht & _).
  rewrite (Ht Hn Hr). reflexivity.
Qed.

Lemma bottom_is_neg_inf (x : float) : fnan x = false -> rank x = - 2 ^ 65 -> x = neg_inf.
Proof.
  intros Hn Hr. rewrite <- (SF2Prim_Prim2SF x).
  destruct (SFrank_range (Prim2SF x) (Prim2SF_valid x)) as (_ & _ & Hb).
  rewrite (Hb Hn Hr). reflexivity.
Qed.

(** Turns the float comparisons of a goal into linear arithmetic on ranks. *)
Ltac rank_vars :=
  repeat match goal with
         | H : context [rank ?x] |- _ =>
             let z := fresh "z" in
             pose proof (rank_range x); set (z := rank x) in *; clearbody z
         | |- context [rank ?x] =>
             let z := fresh "z" in
             pose proof (rank_range x); set (z := rank x) in *; clearbody z
         end.

Ltac float_pre :=
  unfold gtb, geb in *;
  rewrite ?ltb_rank, ?leb_rank in *;
  rewrite ?rank_inf, ?rank_neg_inf, ?fnan_inf, ?fnan_neg_inf in *;
  rank_vars; change (2 ^ 65) with 36893488147419103232 in *.

Ltac float_lia := float_pre; lia.

Lemma py_max2_cases (a b : float) :
  (gtb b a = true /\ py_max2 a b = b) \/ (gtb b a = false /\ py_max2 a b = a).
Proof. unfold py_max2. destruct (gtb b a); auto. Qed.

Lemma py_min2_cases (a b : float) :
  ((b <? a)%float = true /\ py_min2 a b = b) \/ ((b <? a)%float = false /\ py_min2 a b = a).
Proof. unfold py_min2. destruct (b <? a)%float; auto. Qed.

Lemma ltb_irrefl (x : float) : (x <? x)%float = false.
Proof. float_lia. Qed.

Lemma ltb_trans (x y z : float) :
  (x <? y)%float = true -> (y <? z)%float = true -> (x <? z)%float = true.
Proof. intros. float_lia. Qed.

Lemma leb_total (x y : float) :
  fnan x = false -> fnan y = false -> (x <=? y)%float = negb (y <? x)%float.
Proof. intros. float_lia. Qed.

Lemma leb_neg_inf (x : float) : (x <=? neg_inf)%float = true -> x = neg_inf.
Proof.
  intros Hx. apply bottom_is_neg_inf; float_lia.
Qed.

Lemma geb_inf (x : float) : (inf <=? x)%float = true -> x = inf.
Proof.
  intros Hx. apply top_is_inf; float_lia.
Qed.

Lemma py_max2_absorb (alpha b r : float) :
  gtb r b = true \/ r = b -> py_max2 (py_max2 alpha b) r = py_max2 alpha r.
Proof.
  intros Hr. unfold py_max2.
  destruct (gtb b alpha) eqn:G1; destruct (gtb r alpha) eqn:G2;
  destruct (gtb r b) eqn:G3; rewrite ?G2; try reflexivity;
  destruct Hr as [Hr | Hr]; subst; try discriminate; try congruence;
  exfalso; float_lia.
Qed.

Lemma py_min2_absorb (beta b r : float) :
  (r <? b)%float = true \/ r = b -> py_min2 (py_min2 beta b) r = py_min2 beta r.
Proof.
  intros Hr. unfold py_min2.
  destruct (b <? beta)%float eqn:G1; destruct (r <? beta)%float eqn:G2;
  destruct (r <? b)%float eqn:G3; rewrite ?G2; try reflexivity;
  destruct Hr as [Hr | Hr]; subst; try discriminate; try congruence;
  exfalso; float_lia.
Qed.

(** ** Pruning *)

Section Pruning.

Context {Board Player : Type} `{BoardAPI Board Player}.

(** One iteration of the maximizing loops, side by side: what the running
    bests become, and whether the pruned loop stops. *)
Lemma max_step (alpha beta bs bs' v r : float) (bm bm' m m2 move : Move) :
  (alpha <? beta)%float = true -> fnan bs = false -> (bs' <? beta)%float = true ->
  ((bs', bm') = (bs, bm)
   \/ ((bs <=? alpha)%float = true /\ (bs' <=? alpha)%float = true
       /\ (alpha = neg_inf -> bm' = bm))) ->
  same_or_outside (py_max2 alpha bs') beta (v, m) (r, m2) ->
  let best := if gtb v bs then (v, move) else (bs, bm) in
  let best' := if gtb r bs' then (r, move) else (bs', bm') in
  fnan (fst best) = false
  /\ (gtb (fst best') bs' = true \/ fst best' = bs')
  /\ (if geb (fst best') beta
      then best = (v, move) /\ best' = (r, move)
           /\ (beta <=? v)%float = true /\ (beta <=? r)%float = true
      else (fst best' <? beta)%float = true
           /\ (best' = best
               \/ ((fst best <=? alpha)%float = true
                   /\ (fst best' <=? alpha)%float = true
                   /\ (alpha = neg_inf -> snd best' = snd best)))).
Proof.
  intros Hw Hbs Hlt Inv Rch.
  assert (Ha : alpha = neg_inf -> rank alpha = - 2 ^ 65) by (intros ->; reflexivity).
  destruct (py_max2_cases alpha bs') as [[Ga Ea] | [Ga Ea]]; rewrite Ea in Rch; clear Ea;
  (destruct Rch as [Rch | [(A & B & _) | (A & B & _)]];
   [injection Rch as Hr Hm; subst r m2 | | ]);
  (destruct Inv as [Inv | (I1 & I2 & I3)];
   [injection Inv as Hb Hb'; subst bs' bm' | ]);
  cbv zeta; cbn [fst snd] in *;
  repeat match goal with
         | |- context [if gtb ?a ?b then _ else _] =>
             let G := fresh "G" in destruct (gtb a b) eqn:G
         end;
  cbn [fst snd] in *;
  (split; [float_lia | ]);
  (split; [first [left; assumption | right; reflexivity] | ]);
  float_pre;
  match goal with |- if ?c then _ else _ => destruct c eqn:G3 end;
  try (exfalso; lia);
  repeat match goal with |- _ /\ _ => split end;
  try reflexivity; try lia;
  try (left; reflexivity);
  try (right; split; [lia | split; [lia | ]];
       intros Hi; first [ reflexivity | exact (I3 Hi) | exfalso; specialize (Ha Hi); lia ]).
Qed.

(** One iteration of the minimizing loops, side by side. *)
Lemma min_step (alpha beta bs bs' v r : float) (bm bm' m m2 move : Move) :
  (alpha <? beta)%float = true -> fnan bs = false -> (alpha <? bs')%float = true ->
  ((bs', bm') = (bs, bm)
   \/ ((beta <=? bs)%float = true /\ (beta <=? bs')%float = true
       /\ (beta = inf -> bm' = bm))) ->
  same_or_outside alpha (py_min2 beta bs') (v, m) (r, m2) ->
  let best := if (v <? bs)%float then (v, move) else (bs, bm) in
  let best' := if (r <? bs')%float then (r, move) else (bs', bm') in
  fnan (fst best) = false
  /\ ((fst best' <? bs')%float = true \/ fst best' = bs')
  /\ (if (fst best' <=? alpha)%float
      then best = (v, move) /\ best' = (r, move)
           /\ (v <=? alpha)%float = true /\ (r <=? alpha)%float = true
      else (alpha <? fst best')%float = true
           /\ (best' = best
               \/ ((beta <=? fst best)%float = true
                   /\ (beta <=? fst best')%float = true
                   /\ (beta = inf -> snd best' = snd best)))).
Proof.
  intros Hw Hbs Hlt Inv Rch.
  assert (Ha : beta = inf -> rank beta = 2 ^ 65) by (intros ->; reflexivity).
  destruct (py_min2_cases beta bs') as [[Ga Ea] | [Ga Ea]]; rewrite Ea in Rch; clear Ea;
  (destruct Rch as [Rch | [(A & B & _) | (A & B & _)]];
   [injection Rch as Hr Hm; subst r m2 | | ]);
  (destruct Inv as [Inv | (I1 & I2 & I3)];
   [injection Inv as Hb Hb'; subst bs' bm' | ]);
  cbv zeta; cbn [fst snd] in *;
  repeat match goal with
         | |- context [if (?a <? ?b)%float then _ else _] =>
             let G := fresh "G" in destruct (a <? b)%float eqn:G
         end;
  cbn [fst snd] in *;
  (split; [float_lia | ]);
  (split; [first [left; assumption | right; reflexivity] | ]);
  float_pre;
  match goal with |- if ?c then _ else _ => destruct c eqn:G3 end;
  try (exfalso; lia);
  repeat match goal with |- _ /\ _ => split end;
  try reflexivity; try lia;
  try (left; reflexivity);
  try (right; split; [lia | split; [lia | ]];
       intros Hi; first [ reflexivity | exact (I3 Hi) | exfalso; specialize (Ha Hi); lia ]).
Qed.

Section Loops.

Variable cm : Move -> Search (float * Move).
Variable ca : float -> float -> Move -> Search (float * Move).
Hypothesis children :
  forall move alpha beta, (alpha <? beta)%float = true ->
    prunes alpha beta (cm move) (ca alpha beta move).

Lemma child_returns move k :
  exists x k', cm move k = (Return x, k') /\ (k <= k')%nat.
Proof.
  destruct (children move neg_inf inf eq_refl k k) as (x & y & k' & k2' & E & _ & _ & L).
  exists x, k'. split; [exact E | lia].
Qed.

Lemma minimax_max_from moves : forall bs bm k,
  fnan bs = false ->
  exists V M k', minimax_max cm moves bs bm k = (Return (V, M), k')
    /\ (bs <=? V)%float = true /\ (bs = inf -> M = bm) /\ (k <= k')%nat.
Proof.
  induction moves as [|move rest IH]; intros bs bm k Hbs; simpl.
  - exists bs, bm, k. repeat split; auto. float_lia.
  - destruct (child_returns move k) as ([v m] & k1 & E & L). rewrite E.
    destruct (gtb v bs) eqn:G.
    + destruct (IH v move k1) as (V & M & k' & E' & L1 & L2 & L3); [float_lia|].
      exists V, M, k'. repeat split; auto; try lia; try float_lia.
      intros ->. exfalso. float_lia.
    + destruct (IH bs bm k1 Hbs) as (V & M & k' & E' & L1 & L2 & L3).
      exists V, M, k'. repeat split; auto; lia.
Qed.

Lemma minimax_min_from moves : forall bs bm k,
  fnan bs = false ->
  exists V M k', minimax_min cm moves bs bm k = (Return (V, M), k')
    /\ (V <=? bs)%float = true /\ (bs = neg_inf -> M = bm) /\ (k <= k')%nat.
Proof.
  induction moves as [|move rest IH]; intros bs bm k Hbs; simpl.
  - exists bs, bm, k. repeat split; auto. float_lia.
  - destruct (child_returns move k) as ([v m] & k1 & E & L). rewrite E.
    destruct (v <? bs)%float eqn:G.
    + destruct (IH v move k1) as (V & M & k' & E' & L1 & L2 & L3); [float_lia|].
      exists V, M, k'. repeat split; auto; try lia; try float_lia.
      intros ->. exfalso. float_lia.
    + destruct (IH bs bm k1 Hbs) as (V & M & k' & E' & L1 & L2 & L3).
      exists V, M, k'. repeat split; auto; lia.
Qed.

Lemma alphabeta_max_prunes moves : forall alpha beta bs bm bs' bm' k k2,
  (alpha <? beta)%float = true -> fnan bs = false -> (bs' <? beta)%float = true ->
  ((bs', bm') = (bs, bm)
   \/ ((bs <=? alpha)%float = true /\ (bs' <=? alpha)%float = true
       /\ (alpha = neg_inf -> bm' = bm))) ->
  exists x y k' k2',
    minimax_max cm moves bs bm k = (Return x, k')
    /\ alphabeta_max ca moves (py_max2 alpha bs') beta bs' bm' k2 = (Return y, k2')
    /\ same_or_outside alpha beta x y
    /\ (k <= k' /\ k2 <= k2' /\ k2' - k2 <= k' - k)%nat.
Proof.
  induction moves as [|move rest IH]; intros alpha beta bs bm bs' bm' k k2 Hw Hbs Hlt Inv.
  - exists (bs, bm), (bs', bm'), k, k2. simpl.
    split; [reflexivity | split; [reflexivity | split; [ | lia]]].
    destruct Inv as [E | Inv]; [left; exact E | right; left; exact Inv].
  - assert (Hwc : (py_max2 alpha bs' <? beta)%float = true)
      by (destruct (py_max2_cases alpha bs') as [[_ ->] | [_ ->]]; assumption).
    destruct (children move _ _ Hwc k k2)
      as ([v m] & [r m2] & k1 & k21 & E1 & E2 & Rch & C).
    simpl. rewrite E1, E2.
    pose proof (max_step alpha beta bs bs' v r bm bm' m m2 move Hw Hbs Hlt Inv Rch)
      as (Hn & Hup & Hstep).
    replace (if gtb v bs then minimax_max cm rest v move k1
             else minimax_max cm rest bs bm k1)
      with (minimax_max cm rest (fst (if gtb v bs then (v, move) else (bs, bm)))
              (snd (if gtb v bs then (v, move) else (bs, bm))) k1)
      by (destruct (gtb v bs); reflexivity).
    destruct (if gtb v bs then (v, move) else (bs, bm)) as [b1 m1].
    destruct (if gtb r bs' then (r, move) else (bs', bm')) as [b1' m1'].
    cbn [fst snd] in *.
    destruct (geb b1' beta) eqn:G3.
    + destruct Hstep as (Hb & Hb' & Hv & Hr).
      injection Hb as -> ->. injection Hb' as -> ->.
      destruct (minimax_max_from rest v move k1 Hn) as (V & M & k' & E & L1 & L2 & L3).
      exists (V, M), (r, move), k', k21.
      split; [exact E | split; [reflexivity | split; [ | clear - C L3; lia]]].
      right; right. cbn [fst snd]. split; [float_lia | split; [assumption | ]].
      intros ->. symmetry. apply L2. apply geb_inf. assumption.
    + destruct Hstep as (Hlt' & Inv').
      rewrite (py_max2_absorb alpha bs' b1' Hup).
      destruct (IH alpha beta b1 m1 b1' m1' k1 k21 Hw Hn Hlt' Inv')
        as (x & y & k' & k2' & E & E' & Rxy & L).
      exists x, y, k', k2'.
      split; [exact E | split; [exact E' | split; [exact Rxy | clear - C L; lia]]].
Qed.

Lemma alphabeta_min_prunes moves : forall alpha beta bs bm bs' bm' k k2,
  (alpha <? beta)%float = true -> fnan bs = false -> (alpha <? bs')%float = true ->
  ((bs', bm') = (bs, bm)
   \/ ((beta <=? bs)%float = true /\ (beta <=? bs')%float = true
       /\ (beta = inf -> bm' = bm))) ->
  exists x y k' k2',
    minimax_min cm moves bs bm k = (Return x, k')
    /\ alphabeta_min ca moves alpha (py_min2 beta bs') bs' bm' k2 = (Return y, k2')
    /\ same_or_outside alpha beta x y
    /\ (k <= k' /\ k2 <= k2' /\ k2' - k2 <= k' - k)%nat.
Proof.
  induction moves as [|move rest IH]; intros alpha beta bs bm bs' bm' k k2 Hw Hbs Hlt Inv.
  - exists (bs, bm), (bs', bm'), k, k2. simpl.
    split; [reflexivity | split; [reflexivity | split; [ | lia]]].
    destruct Inv as [E | Inv]; [left; exact E | right; right; exact Inv].
  - assert (Hwc : (alpha <? py_min2 beta bs')%float = true)
      by (destruct (py_min2_cases beta bs') as [[_ ->] | [_ ->]]; assumption).
    destruct (children move _ _ Hwc k k2)
      as ([v m] & [r m2] & k1 & k21 & E1 & E2 & Rch & C).
    simpl. rewrite E1, E2.
    pose proof (min_step alpha beta bs bs' v r bm bm' m m2 move Hw Hbs Hlt Inv Rch)
      as (Hn & Hup & Hstep).
    replace (if (v <? bs)%float then minimax_min cm rest v move k1
             else minimax_min cm rest bs bm k1)
      with (minimax_min cm rest (fst (if (v <? bs)%float then (v, move) else (bs, bm)))
              (snd (if (v <? bs)%float then (v, move) else (bs, bm))) k1)
      by (destruct (v <? bs)%float; reflexivity).
    destruct (if (v <? bs)%float then (v, move) else (bs, bm)) as [b1 m1].
    destruct (if (r <? bs')%float then (r, move) else (bs', bm')) as [b1' m1'].
    cbn [fst snd] in *.
    destruct (b1' <=? alpha)%float eqn:G3.
    + destruct Hstep as (Hb & Hb' & Hv & Hr).
      injection Hb as -> ->. injection Hb' as -> ->.
      destruct (minimax_min_from rest v move k1 Hn) as (V & M & k' & E & L1 & L2 & L3).
      exists (V, M), (r, move), k', k21.
      split; [exact E | split; [reflexivity | split; [ | clear - C L3; lia]]].
      right; left. cbn [fst snd]. split; [float_lia | split; [assumption | ]].
      intros ->. symmetry. apply L2. apply leb_neg_inf. assumption.
    + destruct Hstep as (Hlt' & Inv').
      rewrite (py_min2_absorb beta bs' b1' Hup).
      destruct (IH alpha beta b1 m1 b1' m1' k1 k21 Hw Hn Hlt' Inv')
        as (x & y & k' & k2' & E & E' & Rxy & L).
      exists x, y, k', k2'.
      split; [exact E | split; [exact E' | split; [exact Rxy | clear - C L; lia]]].
Qed.

End Loops.

Section Equivalence.

Variable p : CustomPlayer Board Player.

(** An unbounded time budget: no reading of the timer is under the threshold. *)
Hypothesis no_timeout : forall k, out_of_time p k = false.

(** The board's contract: a position whose utility is zero is not finished,
    the player to move has a legal move. *)
Hypothesis has_moves :
  forall g, nonzero (utility g (self p)) = false ->
            get_legal_moves g (active_player g) <> [].

Lemma py_max2_neg_inf (a : float) : py_max2 a neg_inf = a.
Proof.
  unfold py_max2. destruct (gtb neg_inf a) eqn:G; [exfalso; float_lia | reflexivity].
Qed.

Lemma py_min2_inf (a : float) : py_min2 a inf = a.
Proof.
  unfold py_min2. destruct (inf <? a)%float eqn:G; [exfalso; float_lia | reflexivity].
Qed.

Lemma alphabeta_prunes depth : forall game maximizing_player alpha beta,
  (alpha <? beta)%float = true ->
  prunes alpha beta (minimax p depth game maximizing_player)
    (alphabeta p depth game alpha beta maximizing_player).
Proof.
  induction depth as [|d IH]; intros g mx alpha beta Hw k k2; simpl;
    rewrite !no_timeout.
  - exists (leaf p g), (leaf p g), (S k), (S k2).
    split; [reflexivity | split; [reflexivity | split; [left; reflexivity | lia]]].
  - destruct (nonzero (utility g (self p))) eqn:U.
    + exists (leaf p g), (leaf p g), (S k), (S k2).
      split; [reflexivity | split; [reflexivity | split; [left; reflexivity | lia]]].
    + pose proof (has_moves g U) as Hm.
      destruct (get_legal_moves g (active_player g)) as [|m0 rest] eqn:Moves;
        [congruence | clear Hm].
      destruct mx; cbn [negb].
      * destruct (alphabeta_max_prunes
                    (fun move => minimax p d (forecast_move g move) false)
                    (fun a b move => alphabeta p d (forecast_move g move) a b false)
                    (fun move a b Hab => IH (forecast_move g move) false a b Hab)
                    (m0 :: rest) alpha beta neg_inf m0 neg_inf m0 (S k) (S k2) Hw)
          as (x & y & k' & k2' & E & E' & Rxy & L);
          [reflexivity | float_lia | left; reflexivity | ].
        rewrite py_max2_neg_inf in E'.
        exists x, y, k', k2'.
        split; [exact E | split; [exact E' | split; [exact Rxy | clear - L; lia]]].
      * destruct (alphabeta_min_prunes
                    (fun move => minimax p d (forecast_move g move) true)
                    (fun a b move => alphabeta p d (forecast_move g move) a b true)
                    (fun move a b Hab => IH (forecast_move g move) true a b Hab)
                    (m0 :: rest) alpha beta inf m0 inf m0 (S k) (S k2) Hw)
          as (x & y & k' & k2' & E & E' & Rxy & L);
          [reflexivity | float_lia | left; reflexivity | ].
        rewrite py_min2_inf in E'.
        exists x, y, k', k2'.
        split; [exact E | split; [exact E' | split; [exact Rxy | clear - L; lia]]].
Qed.

Lemma full_window_same (x y : float * Move) :
  same_or_outside neg_inf inf x y -> y = x.
Proof.
  destruct x as [v m], y as [r m']. cbn.
  intros [E | [(A & B & C) | (A & B & C)]]; cbn [fst snd] in *.
  - exact E.
  - rewrite (leb_neg_inf _ A), (leb_neg_inf _ B), (C eq_refl). reflexivity.
  - rewrite (geb_inf _ A), (geb_inf _ B), (C eq_refl). reflexivity.
Qed.

End Equivalence.
End Pruning.

(** ** The timer *)

Section Timer.

Context {Board Player : Type} `{BoardAPI Board Player}.
Variable p : CustomPlayer Board Player.

Lemma clean_empty k : clean p k k.
Proof. intros j H1 H2. lia. Qed.

Lemma clean_step k : out_of_time p k = false -> clean p k (S k).
Proof. intros Hk j H1 H2. replace j with k by lia. exact Hk. Qed.

Lemma clean_join k1 k2 k3 : clean p k1 k2 -> clean p k2 k3 -> clean p k1 k3.
Proof.
  intros H12 H23 j H1 H2. destruct (Nat.lt_ge_cases j k2); [apply H12 | apply H23]; lia.
Qed.

(** Sequencing: after a clean stretch from [k0] to [k], a traced computation
    started at [k] is traced from [k0]. *)
Lemma traced_after {A : Type} k0 k (res : Outcome A * nat) :
  (k0 <= k)%nat -> clean p k0 k -> traced p k res -> traced p k0 res.
Proof.
  destruct res as [r k']. unfold traced. intros Hle Hc (Hk & Hr).
  split; [lia | ].
  destruct r as [a | []].
  - eapply clean_join; eassumption.
  - destruct Hr as (Hlt & Hc' & Ht).
    split; [lia | split; [ | exact Ht]]. eapply clean_join; eassumption.
  - eapply clean_join; eassumption.
Qed.

(** The clean stretch left behind by a computation that returned. *)
Lemma traced_return {A : Type} k (a : A) k' :
  traced p k (Return a, k') -> (k <= k')%nat /\ clean p k k'.
Proof. intros H0. exact H0. Qed.

Section TimedLoops.

Variable cm : Move -> Search (float * Move).
Hypothesis cm_traced : forall move k, traced p k (cm move k).

Lemma minimax_max_traced moves : forall bs bm k,
  traced p k (minimax_max cm moves bs bm k).
Proof.
  induction moves as [|move rest IH]; intros bs bm k; simpl.
  - split; [lia | apply clean_empty].
  - pose proof (cm_traced move k) as Hc.
    destruct (cm move k) as [[[v m] | e] k1].
    + destruct (traced_return _ _ _ Hc) as (Hle & Hcl).
      destruct (gtb v bs); eapply traced_after; eauto.
    + exact Hc.
Qed.

Lemma minimax_min_traced moves : forall bs bm k,
  traced p k (minimax_min cm moves bs bm k).
Proof.
  induction moves as [|move rest IH]; intros bs bm k; simpl.
  - split; [lia | apply clean_empty].
  - pose proof (cm_traced move k) as Hc.
    destruct (cm move k) as [[[v m] | e] k1].
    + destruct (traced_return _ _ _ Hc) as (Hle & Hcl).
      destruct (v <? bs)%float; eapply traced_after; eauto.
    + exact Hc.
Qed.

Variable ca : float -> float -> Move -> Search (float * Move).
Hypothesis ca_traced : forall a b move k, traced p k (ca a b move k).

Lemma alphabeta_max_traced moves : forall alpha beta bs bm k,
  traced p k (alphabeta_max ca moves alpha beta bs bm k).
Proof.
  induction moves as [|move rest IH]; intros alpha beta bs bm k; simpl.
  - split; [lia | apply clean_empty].
  - pose proof (ca_traced alpha beta move k) as Hc.
    destruct (ca alpha beta move k) as [[[v m] | e] k1].
    + destruct (traced_return _ _ _ Hc) as (Hle & Hcl).
      destruct (if gtb v bs then (v, move) else (bs, bm)) as [b1 m1].
      destruct (geb b1 beta); [exact Hc | eapply traced_after; eauto].
    + exact Hc.
Qed.

Lemma alphabeta_min_traced moves : forall alpha beta bs bm k,
  traced p k (alphabeta_min ca moves alpha beta bs bm k).
Proof.
  induction moves as [|move rest IH]; intros alpha beta bs bm k; simpl.
  - split; [lia | apply clean_empty].
  - pose proof (ca_traced alpha beta move k) as Hc.
    destruct (ca alpha beta move k) as [[[v m] | e] k1].
    + destruct (traced_return _ _ _ Hc) as (Hle & Hcl).
      destruct (if (v <? bs)%float then (v, move) else (bs, bm)) as [b1 m1].
      destruct (b1 <=? alpha)%float; [exact Hc | eapply traced_after; eauto].
    + exact Hc.
Qed.

End TimedLoops.

(** A search that finds the timer under the threshold on entry raises
    [Timeout] at once: one reading, no child visited. *)
Lemma minimax_out_of_time depth game mx k :
  out_of_time p k = true -> minimax p depth game mx k = (Raise Timeout, S k).
Proof. intros Hk. destruct depth; simpl; rewrite Hk; reflexivity. Qed.

Lemma alphabeta_out_of_time depth game alpha beta mx k :
  out_of_time p k = true ->
  alphabeta p depth game alpha beta mx k = (Raise Timeout, S k).
Proof. intros Hk. destruct depth; simpl; rewrite Hk; reflexivity. Qed.

Lemma traced_entry_timeout {A : Type} k :
  out_of_time p k = true -> traced p k (@Raise A Timeout, S k).
Proof.
  intros Hk. split; [lia | ]. split; [lia | ].
  replace (S k - 1)%nat with k by lia. split; [apply clean_empty | exact Hk].
Qed.

Lemma minimax_traced depth : forall game mx k,
  traced p k (minimax p depth game mx k) /\ (k < snd (minimax p depth game mx k))%nat.
Proof.
  induction depth as [|d IH]; intros g mx k; simpl;
    destruct (out_of_time p k) eqn:Hk;
    try (split; [apply traced_entry_timeout; exact Hk | simpl; lia]).
  - split; [ | simpl; lia]. split; [lia | apply clean_step; exact Hk].
  - destruct (nonzero (utility g (self p))).
    + split; [ | simpl; lia]. split; [lia | apply clean_step; exact Hk].
    + destruct (get_legal_moves g (active_player g)) as [|m0 rest].
      * split; [ | simpl; lia]. split; [lia | apply clean_step; exact Hk].
      * assert (Hloop : forall r : Outcome (float * Move) * nat,
                  traced p (S k) r -> traced p k r /\ (k < snd r)%nat).
        { intros r Hr. split.
          - eapply traced_after; [ | apply clean_step; exact Hk | exact Hr]. lia.
          - destruct r as [r k']. destruct Hr as (Hle & _). simpl. lia. }
        destruct mx; apply Hloop.
        -- apply minimax_max_traced. intros move k0. apply IH.
        -- apply minimax_min_traced. intros move k0. apply IH.
Qed.

Lemma alphabeta_traced depth : forall game alpha beta mx k,
  traced p k (alphabeta p depth game alpha beta mx k)
  /\ (k < snd (alphabeta p depth game alpha beta mx k))%nat.
Proof.
  induction depth as [|d IH]; intros g alpha beta mx k; simpl;
    destruct (out_of_time p k) eqn:Hk;
    try (split; [apply traced_entry_timeout; exact Hk | simpl; lia]).
  - split; [ | simpl; lia]. split; [lia | apply clean_step; exact Hk].
  - destruct (nonzero (utility g (self p))).
    + split; [ | simpl; lia]. split; [lia | apply clean_step; exact Hk].
    + destruct (get_legal_moves g (active_player g)) as [|m0 rest].
      * split; [ | simpl; lia]. split; [lia | apply clean_step; exact Hk].
      * assert (Hloop : forall r : Outcome (float * Move) * nat,
                  traced p (S k) r -> traced p k r /\ (k < snd r)%nat).
        { intros r Hr. split.
          - eapply traced_after; [ | apply clean_step; exact Hk | exact Hr]. lia.
          - destruct r as [r k']. destruct Hr as (Hle & _). simpl. lia. }
        destruct mx; apply Hloop.
        -- apply alphabeta_max_traced. intros a b move k0. apply IH.
        -- apply alphabeta_min_traced. intros a b move k0. apply IH.
Qed.

End Timer.

(** ** get_move *)

Section GetMove.

Context {Board Player : Type} `{BoardAPI Board Player}.

Lemma on_exception_not_timeout e best_move : on_exception e best_move <> Raise Timeout.
Proof. destruct e; discriminate. Qed.

Lemma assign_best_keeps r best_move e bm k :
  assign_best r best_move = (Some e, bm, k) -> bm = best_move /\ r = (Raise e, k).
Proof.
  destruct r as [[[s m] | e'] k']; simpl; intros E; inversion E; subst; auto.
Qed.

(** For a player configured with one of the two searches, the [try] body is
    that search followed by the assignment. *)
Lemma search_by_method_call (p : CustomPlayer Board Player) game depth best_move k :
  method p = "minimax"%string \/ method p = "alphabeta"%string ->
  search_by_method p game depth best_move k
  = assign_best (search_call p game depth k) best_move.
Proof.
  unfold search_by_method, search_call. intros [E | E]; rewrite E; simpl.
  - destruct (assign_best (minimax p depth game true k) best_move) as [[[e|] b] k'];
      reflexivity.
  - reflexivity.
Qed.

(** With any other method the [try] body does nothing. *)
Lemma search_by_method_other (p : CustomPlayer Board Player) game depth best_move k :
  String.eqb (method p) "minimax" = false ->
  String.eqb (method p) "alphabeta" = false ->
  search_by_method p game depth best_move k = (None, best_move, k).
Proof. unfold search_by_method. intros -> ->. reflexivity. Qed.

Lemma search_by_method_cases (p : CustomPlayer Board Player) game depth best_move k :
  search_by_method p game depth best_move k
  = assign_best (minimax p depth game true k) best_move
  \/ search_by_method p game depth best_move k
     = assign_best (alphabeta p depth game neg_inf inf true k) best_move
  \/ search_by_method p game depth best_move k = (None, best_move, k).
Proof.
  destruct (String.eqb (method p) "minimax") eqn:E1.
  - left. rewrite search_by_method_call by (left; apply String.eqb_eq; exact E1).
    unfold search_call. rewrite E1. reflexivity.
  - destruct (String.eqb (method p) "alphabeta") eqn:E2.
    + right; left. rewrite search_by_method_call by (right; apply String.eqb_eq; exact E2).
      unfold search_call. rewrite E1. reflexivity.
    + right; right. apply search_by_method_other; assumption.
Qed.

Lemma search_by_method_raise (p : CustomPlayer Board Player) game depth best_move k e bm k' :
  search_by_method p game depth best_move k = (Some e, bm, k') -> bm = best_move.
Proof.
  destruct (search_by_method_cases p game depth best_move k) as [E | [E | E]];
    rewrite E; intros E'.
  - apply assign_best_keeps in E'. tauto.
  - apply assign_best_keeps in E'. tauto.
  - discriminate.
Qed.

Lemma deepen_not_timeout fuel : forall (p : CustomPlayer Board Player) game depth best_move k k',
  deepen fuel p game depth best_move k <> Some (Raise Timeout, k').
Proof.
  induction fuel as [|fuel IH]; intros p game depth best_move k k'; simpl.
  - discriminate.
  - destruct (search_by_method p game depth best_move k) as [[[e|] b] k1].
    + intros E. inversion E as [[E1 E2]]. exact (on_exception_not_timeout _ _ E1).
    + apply IH.
Qed.

Lemma get_move_not_timeout fuel (p : CustomPlayer Board Player) game legal_moves tl rnd k' :
  get_move fuel p game legal_moves tl rnd <> Some (Raise Timeout, k').
Proof.
  unfold get_move.
  destruct (length legal_moves =? 0)%nat; [discriminate | ].
  destruct (random_choice rnd _) as [b|]; [ | discriminate].
  destruct (iterative (set_time_left p tl)).
  - apply deepen_not_timeout.
  - destruct (search_by_method _ game _ b 0%nat) as [[[e|] b'] k1].
    + intros E. inversion E as [[E1 E2]]. exact (on_exception_not_timeout _ _ E1).
    + discriminate.
Qed.

(** Iterative deepening whose search at depth [d0 + n] is the first to time
    out returns the move of depth [d0 + n - 1], or the incoming [best_move]
    when [n = 0]. *)
Lemma deepen_aborted (p : CustomPlayer Board Player) game
    (res : nat -> float * Move) (ks : nat -> nat) k' :
  method p = "minimax"%string \/ method p = "alphabeta"%string ->
  forall n d0 best_move fuel,
    (forall i, (d0 <= i)%nat -> (i < d0 + n)%nat ->
               search_call p game i (ks i) = (Return (res i), ks (S i))) ->
    search_call p game (d0 + n) (ks (d0 + n)%nat) = (Raise Timeout, k') ->
    (n < fuel)%nat ->
    deepen fuel p game d0 best_move (ks d0)
    = Some (Return (match n with O => best_move | S n' => snd (res (d0 + n')%nat) end), k').
Proof.
  intros Hm. induction n as [|n IH]; intros d0 best_move fuel Hdone Hout Hfuel;
    (destruct fuel as [|fuel]; [lia | ]); simpl.
  - rewrite Nat.add_0_r in Hout.
    rewrite (search_by_method_call p game d0 best_move _ Hm), Hout. reflexivity.
  - rewrite (search_by_method_call p game d0 best_move _ Hm).
    rewrite (Hdone d0) by lia. destruct (res d0) as [s m] eqn:R0. simpl.
    rewrite (IH (S d0) m fuel).
    + destruct n as [|n'].
      * rewrite Nat.add_0_r, R0. reflexivity.
      * replace (S d0 + n')%nat with (d0 + S n')%nat by lia. reflexivity.
    + intros i H1 H2. apply Hdone; lia.
    + replace (S d0 + n)%nat with (d0 + S n)%nat by lia. exact Hout.
    + lia.
Qed.

End GetMove.

(** ** The agent's contracts *)

Section Contracts.

Context {Board Player : Type} `{BoardAPI Board Player}.

(** C2: with an unbounded time budget, on a board whose unfinished positions
    have a legal move, [alphabeta] started with the window (-inf, +inf)
    returns the very pair (score, move) that [minimax] returns at the same
    depth, state, evaluator and layer; it reads the timer (visits nodes) no
    more often. *)
Theorem alphabeta_returns_minimax_result
    (p : CustomPlayer Board Player) (depth : nat) (game : Board)
    (maximizing_player : bool) (k k2 : nat) :
  (forall j, out_of_time p j = false) ->
  (forall g, nonzero (utility g (self p)) = false ->
             get_legal_moves g (active_player g) <> []) ->
  exists result k' k2',
    minimax p depth game maximizing_player k = (Return result, k')
    /\ alphabeta p depth game neg_inf inf maximizing_player k2 = (Return result, k2')
    /\ (k2' - k2 <= k' - k)%nat.
Proof.
  intros Htime Hmoves.
  destruct (alphabeta_prunes p Htime Hmoves depth game maximizing_player
              neg_inf inf eq_refl k k2)
    as (x & y & k' & k2' & E & E' & Rxy & L).
  apply full_window_same in Rxy. subst y.
  exists x, k', k2'. split; [exact E | split; [exact E' | lia]].
Qed.

(** C3: iterative deepening whose searches at depths 0 .. d-1 returned and
    whose search at depth d raised [Timeout] makes [get_move] return the move
    of depth d-1, or the pre-search fallback when d = 0; nothing of the
    aborted search is returned. *)
Theorem timeout_keeps_last_completed_depth
    (p : CustomPlayer Board Player) (game : Board) (legal_moves : list Move)
    (tl : nat -> float) (rnd : nat) (fallback : Move)
    (d : nat) (res : nat -> float * Move) (ks : nat -> nat) (k' fuel : nat) :
  iterative p = true ->
  legal_moves <> [] ->
  random_choice rnd (get_legal_moves game (active_player game)) = Some fallback ->
  method p = "minimax"%string \/ method p = "alphabeta"%string ->
  ks O = O ->
  (forall i, (i < d)%nat ->
     search_call (set_time_left p tl) game i (ks i) = (Return (res i), ks (S i))) ->
  search_call (set_time_left p tl) game d (ks d) = (Raise Timeout, k') ->
  (d < fuel)%nat ->
  get_move fuel p game legal_moves tl rnd
  = Some (Return (match d with O => fallback | S d' => snd (res d') end), k').
Proof.
  intros Hit Hne Hrnd Hm Hk0 Hdone Hout Hfuel.
  unfold get_move.
  destruct legal_moves as [|m0 rest]; [congruence | ]. simpl length. simpl Nat.eqb.
  rewrite Hrnd. simpl iterative. rewrite Hit.
  pose proof (deepen_aborted (set_time_left p tl) game res ks k' Hm d O fallback fuel)
    as Hd.
  rewrite Hk0 in Hd. simpl in Hd. apply Hd.
  - intros i _ Hi. apply Hdone. exact Hi.
  - exact Hout.
  - exact Hfuel.
Qed.

(** C4: a search that finds the timer under the threshold on entry raises
    [Timeout] after that one reading, before any child; whatever the depth, a
    search ends in [Timeout] exactly when its last reading was under the
    threshold, and no earlier reading was: the exception of an inner call
    ends every enclosing call at once.  [get_move] never lets [Timeout]
    escape, and a search it aborted leaves [best_move] as it was. *)
Theorem timeout_discipline (p : CustomPlayer Board Player) :
  (forall depth game mx alpha beta k,
      out_of_time p k = true ->
      minimax p depth game mx k = (Raise Timeout, S k)
      /\ alphabeta p depth game alpha beta mx k = (Raise Timeout, S k))
  /\ (forall depth game mx k,
         traced p k (minimax p depth game mx k)
         /\ (k < snd (minimax p depth game mx k))%nat)
  /\ (forall depth game alpha beta mx k,
         traced p k (alphabeta p depth game alpha beta mx k)
         /\ (k < snd (alphabeta p depth game alpha beta mx k))%nat)
  /\ (forall fuel game legal_moves tl rnd k',
         get_move fuel p game legal_moves tl rnd <> Some (Raise Timeout, k'))
  /\ (forall game depth best_move k bm k',
         search_by_method p game depth best_move k = (Some Timeout, bm, k') ->
         bm = best_move /\ on_exception Timeout bm = Return best_move).
Proof.
  split; [ | split; [ | split; [ | split]]].
  - intros depth game mx alpha beta k Hk. split.
    + apply minimax_out_of_time. exact Hk.
    + apply alphabeta_out_of_time. exact Hk.
  - intros. apply minimax_traced.
  - intros. apply alphabeta_traced.
  - intros. apply get_move_not_timeout.
  - intros game depth best_move k bm k' E.
    apply search_by_method_raise in E. subst bm. split; reflexivity.
Qed.

(** C5: with time remaining, [minimax] at depth 0 reads the timer once,
    visits no child, and returns the evaluator's score of the state for the
    searching agent with the last move of the inactive player; so it does at
    any depth when the state's utility for the agent is not zero; and
    [alphabeta] returns the same in both cases. *)
Theorem leaf_returns_score_and_last_move
    (p : CustomPlayer Board Player) (depth : nat) (game : Board)
    (maximizing_player : bool) (alpha beta : float) (k : nat) :
  out_of_time p k = false ->
  let result := (score p game (self p), last_player_move game (inactive_player game)) in
  minimax p O game maximizing_player k = (Return result, S k)
  /\ alphabeta p O game alpha beta maximizing_player k = (Return result, S k)
  /\ (nonzero (utility game (self p)) = true ->
      minimax p depth game maximizing_player k = (Return result, S k)
      /\ alphabeta p depth game alpha beta maximizing_player k = (Return result, S k)).
Proof.
  intros Hk result. simpl. rewrite Hk.
  split; [reflexivity | split; [reflexivity | ]].
  intros Hu. destruct depth; simpl; rewrite Hk, ?Hu; split; reflexivity.
Qed.

(** C6: each of the three evaluators returns -inf for a player who has lost
    and +inf for a player who has won, whatever the rest of the position (on
    a board where no player has both lost and won). *)
Theorem evaluators_check_terminal_first (game : Board) (player : Player) :
  is_loser game player && is_winner game player = false ->
  (is_loser game player = true ->
   attacking_score game player = neg_inf
   /\ deeper_score game player = neg_inf
   /\ custom_score game player = neg_inf)
  /\ (is_winner game player = true ->
      attacking_score game player = inf
      /\ deeper_score game player = inf
      /\ custom_score game player = inf).
Proof.
  intros Hex. unfold attacking_score, deeper_score, custom_score. split.
  - intros ->. repeat split.
  - intros Hw. rewrite Hw in *. rewrite andb_true_r in Hex. rewrite Hex.
    repeat split.
Qed.

(** C8: on an empty [legal_moves], [get_move] returns (-1, -1), without an
    exception and with no reading of the timer; since every call of
    [minimax] or [alphabeta] reads the timer, no search was invoked. *)
Theorem get_move_no_legal_moves
    (fuel : nat) (p : CustomPlayer Board Player) (game : Board)
    (tl : nat -> float) (rnd : nat) :
  get_move fuel p game [] tl rnd = Some (Return no_move, O)
  /\ (forall q depth g mx alpha beta k,
        (k < snd (minimax q depth g mx k))%nat
        /\ (k < snd (alphabeta q depth g alpha beta mx k))%nat).
Proof.
  split; [reflexivity | ].
  intros q depth g mx alpha beta k. split.
  - apply minimax_traced.
  - apply alphabeta_traced.
Qed.

(** C10: when [legal_moves] is not empty but the board reports no legal move
    for the player to move, [get_move] raises [IndexError]: the fallback is
    drawn from the board, not from the argument. *)
Theorem get_move_fallback_from_board
    (fuel : nat) (p : CustomPlayer Board Player) (game : Board)
    (legal_moves : list Move) (tl : nat -> float) (rnd : nat) :
  legal_moves <> [] ->
  get_legal_moves game (active_player game) = [] ->
  get_move fuel p game legal_moves tl rnd = Some (Raise IndexError, O).
Proof.
  intros Hne Hboard. unfold get_move.
  destruct legal_moves as [|m0 rest]; [congruence | ].
  simpl. rewrite Hboard. reflexivity.
Qed.

End Contracts.

(** ** Which move is returned *)

Section ReturnedMove.

Context {Board Player : Type} `{BoardAPI Board Player}.

Lemma random_choice_In {A : Type} (r : nat) (seq : list A) (x : A) :
  random_choice r seq = Some x -> In x seq.
Proof.
  unfold random_choice. destruct seq as [|a seq]; [discriminate | ].
  apply nth_error_In.
Qed.

Lemma random_choice_some {A : Type} (r : nat) (seq : list A) :
  seq <> [] -> exists x, random_choice r seq = Some x.
Proof.
  destruct seq as [|a seq]; [congruence | intros _].
  unfold random_choice.
  destruct (nth_error (a :: seq) (r mod length (a :: seq))) as [x|] eqn:E.
  - exists x. reflexivity.
  - apply nth_error_None in E.
    pose proof (Nat.mod_upper_bound r (length (a :: seq))) as Hb.
    simpl in *. lia.
Qed.

(** The loops return the initial [best_move] or one of the moves they ran
    over. *)
Lemma minimax_max_move (cm : Move -> Search (float * Move)) moves :
  forall bs bm k V M k',
    minimax_max cm moves bs bm k = (Return (V, M), k') -> M = bm \/ In M moves.
Proof.
  induction moves as [|move rest IH]; intros bs bm k V M k'; simpl.
  - intros E. inversion E. auto.
  - destruct (cm move k) as [[[v m] | e] k1]; [ | discriminate].
    destruct (gtb v bs); intros E; apply IH in E; destruct E as [-> | E]; auto.
Qed.

Lemma minimax_min_move (cm : Move -> Search (float * Move)) moves :
  forall bs bm k V M k',
    minimax_min cm moves bs bm k = (Return (V, M), k') -> M = bm \/ In M moves.
Proof.
  induction moves as [|move rest IH]; intros bs bm k V M k'; simpl.
  - intros E. inversion E. auto.
  - destruct (cm move k) as [[[v m] | e] k1]; [ | discriminate].
    destruct (v <? bs)%float; intros E; apply IH in E; destruct E as [-> | E]; auto.
Qed.

Lemma alphabeta_max_move (ca : float -> float -> Move -> Search (float * Move)) moves :
  forall alpha beta bs bm k V M k',
    alphabeta_max ca moves alpha beta bs bm k = (Return (V, M), k') ->
    M = bm \/ In M moves.
Proof.
  induction moves as [|move rest IH]; intros alpha beta bs bm k V M k'; simpl.
  - intros E. inversion E. auto.
  - destruct (ca alpha beta move k) as [[[v m] | e] k1]; [ | discriminate].
    destruct (gtb v bs); cbn iota beta;
      match goal with |- context [if ?c then _ else _] => destruct c end;
      intros E; try (inversion E; subst; auto; fail);
      apply IH in E; destruct E as [-> | E]; auto.
Qed.

Lemma alphabeta_min_move (ca : float -> float -> Move -> Search (float * Move)) moves :
  forall alpha beta bs bm k V M k',
    alphabeta_min ca moves alpha beta bs bm k = (Return (V, M), k') ->
    M = bm \/ In M moves.
Proof.
  induction moves as [|move rest IH]; intros alpha beta bs bm k V M k'; simpl.
  - intros E. inversion E. auto.
  - destruct (ca alpha beta move k) as [[[v m] | e] k1]; [ | discriminate].
    destruct (v <? bs)%float; cbn iota beta;
      match goal with |- context [if ?c then _ else _] => destruct c end;
      intros E; try (inversion E; subst; auto; fail);
      apply IH in E; destruct E as [-> | E]; auto.
Qed.

Variable p : CustomPlayer Board Player.

(** Below the root of an unfinished position, a search that returns, returns
    one of the position's legal moves. *)
Lemma minimax_root_move d game mx k V M k' :
  nonzero (utility game (self p)) = false ->
  minimax p (S d) game mx k = (Return (V, M), k') ->
  In M (get_legal_moves game (active_player game)).
Proof.
  intros Hu. simpl. rewrite Hu.
  destruct (out_of_time p k); [discriminate | ].
  destruct (get_legal_moves game (active_player game)) as [|m0 rest]; [discriminate | ].
  destruct mx; intros E;
    [apply minimax_max_move in E | apply minimax_min_move in E];
    destruct E as [-> | E]; simpl; auto.
Qed.

Lemma alphabeta_root_move d game alpha beta mx k V M k' :
  nonzero (utility game (self p)) = false ->
  alphabeta p (S d) game alpha beta mx k = (Return (V, M), k') ->
  In M (get_legal_moves game (active_player game)).
Proof.
  intros Hu. simpl. rewrite Hu.
  destruct (out_of_time p k); [discriminate | ].
  destruct (get_legal_moves game (active_player game)) as [|m0 rest]; [discriminate | ].
  destruct mx; intros E;
    [apply alphabeta_max_move in E | apply alphabeta_min_move in E];
    destruct E as [-> | E]; simpl; auto.
Qed.

Lemma assign_best_returned r best_move bm k :
  assign_best r best_move = (None, bm, k) -> exists s, r = (Return (s, bm), k).
Proof.
  destruct r as [[[s m] | e] k']; simpl; intros E; inversion E; subst; eauto.
Qed.

(** After the [try] body at a depth of at least one, on an unfinished
    position, [best_move] is as before or a legal move. *)
Lemma search_by_method_move game d best_move k e bm k' :
  nonzero (utility game (self p)) = false ->
  search_by_method p game (S d) best_move k = (e, bm, k') ->
  bm = best_move \/ In bm (get_legal_moves game (active_player game)).
Proof.
  intros Hu E.
  destruct e as [e|].
  - apply search_by_method_raise in E. auto.
  - destruct (search_by_method_cases p game (S d) best_move k) as [E' | [E' | E']];
      rewrite E' in E.
    + apply assign_best_returned in E as [s E].
      right. eapply minimax_root_move; eassumption.
    + apply assign_best_returned in E as [s E].
      right. eapply alphabeta_root_move; eassumption.
    + inversion E; subst. auto.
Qed.

(** After the [try] body at depth 0, [best_move] is as before or the last
    move of the inactive player. *)
Lemma search_by_method_move_0 game best_move k e bm k' :
  search_by_method p game O best_move k = (e, bm, k') ->
  bm = best_move \/ bm = last_player_move game (inactive_player game).
Proof.
  intros E.
  destruct e as [e|].
  - apply search_by_method_raise in E. auto.
  - destruct (search_by_method_cases p game O best_move k) as [E' | [E' | E']];
      rewrite E' in E.
    + apply assign_best_returned in E as [s E]. simpl in E.
      destruct (out_of_time p k); inversion E. auto.
    + apply assign_best_returned in E as [s E]. simpl in E.
      destruct (out_of_time p k); inversion E. auto.
    + inversion E; subst. auto.
Qed.

(** Iterative deepening on an unfinished position returns a legal move or
    the last move of the inactive player, when [best_move] was one of these
    on entry. *)
Lemma deepen_move game fuel : forall depth best_move k m k',
  nonzero (utility game (self p)) = false ->
  In best_move (get_legal_moves game (active_player game))
  \/ best_move = last_player_move game (inactive_player game) ->
  deepen fuel p game depth best_move k = Some (Return m, k') ->
  In m (get_legal_moves game (active_player game))
  \/ m = last_player_move game (inactive_player game).
Proof.
  induction fuel as [|fuel IH]; intros depth best_move k m k' Hu Hin; simpl;
    [discriminate | ].
  destruct (search_by_method p game depth best_move k) as [[e bm] k1] eqn:E.
  assert (Hbm : In bm (get_legal_moves game (active_player game))
                \/ bm = last_player_move game (inactive_player game)).
  { destruct depth as [|d].
    - apply search_by_method_move_0 in E. destruct E as [-> | ->]; auto.
    - apply search_by_method_move in E; [ | exact Hu]. destruct E as [-> | E]; auto. }
  destruct e as [e|].
  - destruct e; simpl; intros Em; inversion Em; subst. exact Hbm.
  - apply IH; assumption.
Qed.

End ReturnedMove.

Section FixedDepth.

Context {Board Player : Type} `{BoardAPI Board Player}.

(** X1: at a fixed depth of at least one, on an unfinished position whose
    legal moves are the ones supplied, [get_move] ends, without [Timeout],
    and a move it returns is one of the supplied legal moves. *)
Theorem fixed_depth_returns_legal_move
    (fuel : nat) (p : CustomPlayer Board Player) (game : Board)
    (legal_moves : list Move) (tl : nat -> float) (rnd d : nat) :
  iterative p = false ->
  search_depth p = S d ->
  nonzero (utility game (self p)) = false ->
  legal_moves <> [] ->
  get_legal_moves game (active_player game) = legal_moves ->
  exists r k,
    get_move fuel p game legal_moves tl rnd = Some (r, k)
    /\ r <> Raise Timeout
    /\ forall m, r = Return m -> In m legal_moves.
Proof.
  intros Hit Hd Hu Hne Hboard. unfold get_move.
  destruct legal_moves as [|m0 rest] eqn:L; [congruence | ].
  simpl length. simpl Nat.eqb. cbv iota.
  rewrite Hboard.
  destruct (random_choice_some rnd (m0 :: rest) Hne) as [b Hb]. rewrite Hb.
  simpl iterative. rewrite Hit. simpl search_depth. rewrite Hd.
  pose proof (random_choice_In _ _ _ Hb) as Hin.
  destruct (search_by_method (set_time_left p tl) game (S d) b 0%nat)
    as [[e bm] k] eqn:E.
  assert (Hbm : In bm (m0 :: rest)).
  { apply (search_by_method_move (set_time_left p tl)) in E; [ | exact Hu].
    rewrite Hboard in E. destruct E as [-> | E]; assumption. }
  destruct e as [e|].
  - exists (on_exception e bm), k. split; [reflexivity | split].
    + apply on_exception_not_timeout.
    + destruct e; simpl; intros m Em; inversion Em; subst; exact Hbm.
  - exists (Return bm), k. split; [reflexivity | split; [discriminate | ]].
    intros m Em; inversion Em; subst; exact Hbm.
Qed.

(** X2: with a single legal move, a fixed depth of at least one returns
    it. *)
Theorem fixed_depth_returns_only_move
    (fuel : nat) (p : CustomPlayer Board Player) (game : Board)
    (only : Move) (tl : nat -> float) (rnd d : nat) (m : Move) (k : nat) :
  iterative p = false ->
  search_depth p = S d ->
  nonzero (utility game (self p)) = false ->
  get_legal_moves game (active_player game) = [only] ->
  get_move fuel p game [only] tl rnd = Some (Return m, k) ->
  m = only.
Proof.
  intros Hit Hd Hu Hboard. unfold get_move.
  simpl length. simpl Nat.eqb. cbv iota.
  rewrite Hboard. unfold random_choice. simpl length. rewrite Nat.mod_1_r. simpl nth_error.
  simpl iterative. rewrite Hit. simpl search_depth. rewrite Hd.
  destruct (search_by_method (set_time_left p tl) game (S d) only 0%nat)
    as [[e bm] k1] eqn:E.
  assert (Hbm : bm = only).
  { apply (search_by_method_move (set_time_left p tl)) in E; [ | exact Hu].
    rewrite Hboard in E. destruct E as [E | [E | []]]; congruence. }
  subst bm.
  destruct e as [e|]; [destruct e | ]; simpl; intros Em; inversion Em; reflexivity.
Qed.

(** X5: in either mode, on an unfinished position whose legal moves are the
    ones supplied, a move that [get_move] returns is one of them or the last
    move of the inactive player (the result of a search at depth 0). *)
Theorem get_move_legal_or_last_move
    (fuel : nat) (p : CustomPlayer Board Player) (game : Board)
    (legal_moves : list Move) (tl : nat -> float) (rnd : nat) (m : Move) (k : nat) :
  nonzero (utility game (self p)) = false ->
  legal_moves <> [] ->
  get_legal_moves game (active_player game) = legal_moves ->
  get_move fuel p game legal_moves tl rnd = Some (Return m, k) ->
  In m legal_moves \/ m = last_player_move game (inactive_player game).
Proof.
  intros Hu Hne Hboard. unfold get_move.
  destruct legal_moves as [|m0 rest] eqn:L; [congruence | ].
  simpl length. simpl Nat.eqb. cbv iota.
  rewrite Hboard.
  destruct (random_choice rnd (m0 :: rest)) as [b|] eqn:Hb; [ | discriminate].
  pose proof (random_choice_In _ _ _ Hb) as Hin.
  destruct (iterative (set_time_left p tl)).
  - intros E. rewrite <- Hboard.
    eapply (deepen_move (set_time_left p tl)); [exact Hu | | exact E].
    left. rewrite Hboard. exact Hin.
  - destruct (search_by_method (set_time_left p tl) game _ b 0%nat)
      as [[e bm] k1] eqn:E.
    assert (Hbm : In bm (m0 :: rest)
                  \/ bm = last_player_move game (inactive_player game)).
    { destruct (search_depth (set_time_left p tl)) as [|d].
      - apply search_by_method_move_0 in E. destruct E as [-> | ->]; auto.
      - apply (search_by_method_move (set_time_left p tl)) in E; [ | exact Hu].
        rewrite Hboard in E. destruct E as [-> | E]; auto. }
    destruct e as [e|].
    + destruct e; simpl; intros Em; inversion Em; subst. exact Hbm.
    + intros Em; inversion Em; subst. exact Hbm.
Qed.

(** X3: on a square board, away from finished games, [custom_score] is the
    claimed center-weighted mobility. *)
Theorem custom_score_on_square_board (game : Board) (player : Player) :
  is_loser game player = false ->
  is_winner game player = false ->
  width game = height game ->
  custom_score game player = center_mobility game player.
Proof.
  intros Hl Hw Hsq. unfold custom_score, center_mobility.
  rewrite Hl, Hw, Hsq. destruct (get_player_location game player). reflexivity.
Qed.

(** X4: with an unbounded time budget iterative deepening does not end: no
    amount of fuel makes [get_move] return. *)
Theorem unbounded_budget_never_returns
    (fuel : nat) (p : CustomPlayer Board Player) (game : Board)
    (legal_moves : list Move) (tl : nat -> float) (rnd : nat) :
  iterative p = true ->
  method p = "minimax"%string \/ method p = "alphabeta"%string ->
  (forall j, (tl j <? TIMER_THRESHOLD p)%float = false) ->
  (forall g, nonzero (utility g (self p)) = false ->
             get_legal_moves g (active_player g) <> []) ->
  legal_moves <> [] ->
  get_legal_moves game (active_player game) <> [] ->
  get_move fuel p game legal_moves tl rnd = None.
Proof.
  intros Hit Hm Htl Hmoves Hne Hboard. unfold get_move.
  destruct legal_moves as [|m0 rest]; [congruence | ].
  simpl length. simpl Nat.eqb. cbv iota.
  destruct (random_choice_some rnd _ Hboard) as [b ->].
  simpl iterative. rewrite Hit.
  assert (Hloop : forall depth best k,
             deepen fuel (set_time_left p tl) game depth best k = None);
    [ | apply Hloop].
  induction fuel as [|fuel IH]; intros depth best k; simpl; [reflexivity | ].
  rewrite search_by_method_call by exact Hm.
  destruct (alphabeta_prunes (set_time_left p tl) Htl Hmoves depth game true
              neg_inf inf eq_refl k k)
    as (x & y & k1 & k2 & E1 & E2 & _).
  unfold search_call. destruct (String.eqb _ "minimax").
  - rewrite E1. destruct x as [s m]. simpl. apply IH.
  - rewrite E2. destruct y as [s m]. simpl. apply IH.
Qed.

End FixedDepth.

(** ** Searches that do not time out *)

Section TimerFree.

Context {Board Player : Type} `{BoardAPI Board Player}.

Variables p q : CustomPlayer Board Player.
Hypothesis same_score : score q = score p.
Hypothesis same_self : self q = self p.

Lemma clean_prefix k a b : (a <= b)%nat -> clean q k (k + b) -> clean q k (k + a).
Proof. intros Hab Hc j H1 H2. apply Hc; lia. Qed.

Lemma clean_suffix k a b : (a <= b)%nat -> clean q k (k + b) -> clean q (k + a) (k + a + (b - a)).
Proof. intros Hab Hc j H1 H2. apply Hc; lia. Qed.

Section FreeLoops.

Variables cm cm2 : Move -> Search (float * Move).
Hypothesis cm_repeats : forall move, repeats q (cm move) (cm2 move).

(** The step of a loop: the child returned, and the rest of the loop, started
    where the child ended, is known to repeat. *)
Lemma repeats_step {A : Type} (k k1 k' : nat) (r : Outcome A) (child : float * Move)
    (f2 : Search (float * Move)) (rest2 : Search A) :
  (k <= k1)%nat ->
  (forall k2, clean q k2 (k2 + (k1 - k)) -> f2 k2 = (Return child, (k2 + (k1 - k))%nat)) ->
  (k1 <= k')%nat ->
  (forall k2, clean q k2 (k2 + (k' - k1)) -> rest2 k2 = (r, (k2 + (k' - k1))%nat)) ->
  (k <= k')%nat
  /\ forall k2, clean q k2 (k2 + (k' - k)) ->
       f2 k2 = (Return child, (k2 + (k1 - k))%nat)
       /\ rest2 (k2 + (k1 - k))%nat = (r, (k2 + (k' - k))%nat).
Proof.
  intros L1 Hc2 L2 Hrest. split; [lia | ].
  intros k2 Hclean. split.
  - apply Hc2. apply (clean_prefix k2 (k1 - k) (k' - k)); [lia | exact Hclean].
  - replace (k2 + (k' - k))%nat with (k2 + (k1 - k) + (k' - k1))%nat by lia.
    apply Hrest.
    replace (k' - k1)%nat with ((k' - k) - (k1 - k))%nat by lia.
    apply clean_suffix; [lia | exact Hclean].
Qed.

Lemma minimax_max_repeats moves : forall bs bm,
  repeats q (minimax_max cm moves bs bm) (minimax_max cm2 moves bs bm).
Proof.
  induction moves as [|move rest IH]; intros bs bm k r k'; simpl.
  - intros E _. inversion E; subst. split; [lia | ].
    intros k2 _. rewrite Nat.sub_diag, Nat.add_0_r. reflexivity.
  - destruct (cm move k) as [[[v m] | e] k1] eqn:Ec.
    + destruct (cm_repeats move k _ _ Ec ltac:(discriminate)) as (L1 & Hc2).
      intros E Hr.
      assert (Hrest : repeats q (if gtb v bs then minimax_max cm rest v move
                               else minimax_max cm rest bs bm)
                              (if gtb v bs then minimax_max cm2 rest v move
                               else minimax_max cm2 rest bs bm))
        by (destruct (gtb v bs); apply IH).
      destruct (Hrest k1 r k') as (L2 & Hrest2);
        [destruct (gtb v bs); exact E | exact Hr | ].
      destruct (repeats_step k k1 k' r (v, m) (cm2 move) _ L1 Hc2 L2 Hrest2) as (L & Hall).
      split; [exact L | ]. intros k2 Hclean.
      destruct (Hall k2 Hclean) as (E1 & E2). rewrite E1.
      destruct (gtb v bs); exact E2.
    + intros E Hr. inversion E; subst.
      destruct (cm_repeats move k _ _ Ec Hr) as (L1 & Hc2).
      split; [exact L1 | ]. intros k2 Hclean. rewrite (Hc2 k2 Hclean). reflexivity.
Qed.

Lemma minimax_min_repeats moves : forall bs bm,
  repeats q (minimax_min cm moves bs bm) (minimax_min cm2 moves bs bm).
Proof.
  induction moves as [|move rest IH]; intros bs bm k r k'; simpl.
  - intros E _. inversion E; subst. split; [lia | ].
    intros k2 _. rewrite Nat.sub_diag, Nat.add_0_r. reflexivity.
  - destruct (cm move k) as [[[v m] | e] k1] eqn:Ec.
    + destruct (cm_repeats move k _ _ Ec ltac:(discriminate)) as (L1 & Hc2).
      intros E Hr.
      assert (Hrest : repeats q (if (v <? bs)%float then minimax_min cm rest v move
                               else minimax_min cm rest bs bm)
                              (if (v <? bs)%float then minimax_min cm2 rest v move
                               else minimax_min cm2 rest bs bm))
        by (destruct (v <? bs)%float; apply IH).
      destruct (Hrest k1 r k') as (L2 & Hrest2);
        [destruct (v <? bs)%float; exact E | exact Hr | ].
      destruct (repeats_step k k1 k' r (v, m) (cm2 move) _ L1 Hc2 L2 Hrest2) as (L & Hall).
      split; [exact L | ]. intros k2 Hclean.
      destruct (Hall k2 Hclean) as (E1 & E2). rewrite E1.
      destruct (v <? bs)%float; exact E2.
    + intros E Hr. inversion E; subst.
      destruct (cm_repeats move k _ _ Ec Hr) as (L1 & Hc2).
      split; [exact L1 | ]. intros k2 Hclean. rewrite (Hc2 k2 Hclean). reflexivity.
Qed.

Variables ca ca2 : float -> float -> Move -> Search (float * Move).
Hypothesis ca_repeats : forall a b move, repeats q (ca a b move) (ca2 a b move).

Lemma repeats_now {A : Type} (x : Outcome A) (f f2 : Search A) :
  (forall k, f k = (x, k)) -> (forall k, f2 k = (x, k)) -> repeats q f f2.
Proof.
  intros Hf Hf2 k r k' E _. rewrite Hf in E. inversion E; subst.
  split; [lia | ]. intros k2 _. rewrite Nat.sub_diag, Nat.add_0_r. apply Hf2.
Qed.

Lemma alphabeta_max_repeats moves : forall alpha beta bs bm,
  repeats q (alphabeta_max ca moves alpha beta bs bm)
          (alphabeta_max ca2 moves alpha beta bs bm).
Proof.
  induction moves as [|move rest IH]; intros alpha beta bs bm k r k'; simpl.
  - intros E _. inversion E; subst. split; [lia | ].
    intros k2 _. rewrite Nat.sub_diag, Nat.add_0_r. reflexivity.
  - destruct (ca alpha beta move k) as [[[v m] | e] k1] eqn:Ec.
    + destruct (ca_repeats alpha beta move k _ _ Ec ltac:(discriminate)) as (L1 & Hc2).
      destruct (if gtb v bs then (v, move) else (bs, bm)) as [b1 m1] eqn:Hbest.
      intros E Hr.
      assert (Hrest : repeats q
                (fun k => if geb b1 beta then (Return (b1, m1), k)
                          else alphabeta_max ca rest (py_max2 alpha b1) beta b1 m1 k)
                (fun k => if geb b1 beta then (Return (b1, m1), k)
                          else alphabeta_max ca2 rest (py_max2 alpha b1) beta b1 m1 k)).
      { destruct (geb b1 beta); [eapply repeats_now; intros; reflexivity | apply IH]. }
      destruct (Hrest k1 r k' E Hr) as (L2 & Hrest2).
      destruct (repeats_step k k1 k' r (v, m) (ca2 alpha beta move) _ L1 Hc2 L2 Hrest2)
        as (L & Hall).
      split; [exact L | ]. intros k2 Hclean.
      destruct (Hall k2 Hclean) as (E1 & E2). rewrite E1, Hbest. exact E2.
    + intros E Hr. inversion E; subst.
      destruct (ca_repeats alpha beta move k _ _ Ec Hr) as (L1 & Hc2).
      split; [exact L1 | ]. intros k2 Hclean. rewrite (Hc2 k2 Hclean). reflexivity.
Qed.

Lemma alphabeta_min_repeats moves : forall alpha beta bs bm,
  repeats q (alphabeta_min ca moves alpha beta bs bm)
          (alphabeta_min ca2 moves alpha beta bs bm).
Proof.
  induction moves as [|move rest IH]; intros alpha beta bs bm k r k'; simpl.
  - intros E _. inversion E; subst. split; [lia | ].
    intros k2 _. rewrite Nat.sub_diag, Nat.add_0_r. reflexivity.
  - destruct (ca alpha beta move k) as [[[v m] | e] k1] eqn:Ec.
    + destruct (ca_repeats alpha beta move k _ _ Ec ltac:(discriminate)) as (L1 & Hc2).
      destruct (if (v <? bs)%float then (v, move) else (bs, bm)) as [b1 m1] eqn:Hbest.
      intros E Hr.
      assert (Hrest : repeats q
                (fun k => if (b1 <=? alpha)%float then (Return (b1, m1), k)
                          else alphabeta_min ca rest alpha (py_min2 beta b1) b1 m1 k)
                (fun k => if (b1 <=? alpha)%float then (Return (b1, m1), k)
                          else alphabeta_min ca2 rest alpha (py_min2 beta b1) b1 m1 k)).
      { destruct (b1 <=? alpha)%float; [eapply repeats_now; intros; reflexivity | apply IH]. }
      destruct (Hrest k1 r k' E Hr) as (L2 & Hrest2).
      destruct (repeats_step k k1 k' r (v, m) (ca2 alpha beta move) _ L1 Hc2 L2 Hrest2)
        as (L & Hall).
      split; [exact L | ]. intros k2 Hclean.
      destruct (Hall k2 Hclean) as (E1 & E2). rewrite E1, Hbest. exact E2.
    + intros E Hr. inversion E; subst.
      destruct (ca_repeats alpha beta move k _ _ Ec Hr) as (L1 & Hc2).
      split; [exact L1 | ]. intros k2 Hclean. rewrite (Hc2 k2 Hclean). reflexivity.
Qed.

End FreeLoops.

(** Entering a node: one reading over the threshold, then the body. *)
Lemma repeats_entry {A : Type} (body body2 : Search A) :
  repeats q body body2 ->
  repeats q (fun k => if out_of_time p k then (Raise Timeout, S k) else body (S k))
          (fun k => if out_of_time q k then (Raise Timeout, S k) else body2 (S k)).
Proof.
  intros Hb k r k' E Hr.
  destruct (out_of_time p k); [inversion E; subst; congruence | ].
  destruct (Hb (S k) r k' E Hr) as (L & Hb2). split; [lia | ].
  intros k2 Hclean.
  rewrite (Hclean k2) by lia.
  replace (k2 + (k' - k))%nat with (S k2 + (k' - S k))%nat by lia.
  apply Hb2. intros j H1 H2. apply Hclean; lia.
Qed.

Lemma minimax_repeats depth : forall game mx,
  repeats q (minimax p depth game mx) (minimax q depth game mx).
Proof.
  induction depth as [|d IH]; intros g mx.
  - apply (repeats_entry (fun k => (Return (leaf p g), k)) (fun k => (Return (leaf q g), k))).
    unfold leaf. rewrite same_score, same_self. eapply repeats_now; intros; reflexivity.
  - apply (repeats_entry
             (fun k =>
                if nonzero (utility g (self p)) then (Return (leaf p g), k)
                else match get_legal_moves g (active_player g) with
                     | [] => (Raise IndexError, k)
                     | best_move :: _ =>
                         if mx
                         then minimax_max
                                (fun move => minimax p d (forecast_move g move) (negb mx))
                                (get_legal_moves g (active_player g)) neg_inf best_move k
                         else minimax_min
                                (fun move => minimax p d (forecast_move g move) (negb mx))
                                (get_legal_moves g (active_player g)) inf best_move k
                     end)
             (fun k =>
                if nonzero (utility g (self q)) then (Return (leaf q g), k)
                else match get_legal_moves g (active_player g) with
                     | [] => (Raise IndexError, k)
                     | best_move :: _ =>
                         if mx
                         then minimax_max
                                (fun move => minimax q d (forecast_move g move) (negb mx))
                                (get_legal_moves g (active_player g)) neg_inf best_move k
                         else minimax_min
                                (fun move => minimax q d (forecast_move g move) (negb mx))
                                (get_legal_moves g (active_player g)) inf best_move k
                     end)).
    unfold leaf. rewrite same_score, same_self.
    destruct (nonzero (utility g (self p))); [eapply repeats_now; intros; reflexivity | ].
    destruct (get_legal_moves g (active_player g)) as [|m0 rest];
      [eapply repeats_now; intros; reflexivity | ].
    destruct mx.
    + apply minimax_max_repeats. intros move. apply IH.
    + apply minimax_min_repeats. intros move. apply IH.
Qed.

Lemma alphabeta_repeats depth : forall game alpha beta mx,
  repeats q (alphabeta p depth game alpha beta mx) (alphabeta q depth game alpha beta mx).
Proof.
  induction depth as [|d IH]; intros g alpha beta mx.
  - apply (repeats_entry (fun k => (Return (leaf p g), k)) (fun k => (Return (leaf q g), k))).
    unfold leaf. rewrite same_score, same_self. eapply repeats_now; intros; reflexivity.
  - apply (repeats_entry
             (fun k =>
                if nonzero (utility g (self p)) then (Return (leaf p g), k)
                else match get_legal_moves g (active_player g) with
                     | [] => (Raise IndexError, k)
                     | best_move :: _ =>
                         if mx
                         then alphabeta_max
                                (fun a b move =>
                                   alphabeta p d (forecast_move g move) a b (negb mx))
                                (get_legal_moves g (active_player g)) alpha beta
                                neg_inf best_move k
                         else alphabeta_min
                                (fun a b move =>
                                   alphabeta p d (forecast_move g move) a b (negb mx))
                                (get_legal_moves g (active_player g)) alpha beta
                                inf best_move k
                     end)
             (fun k =>
                if nonzero (utility g (self q)) then (Return (leaf q g), k)
                else match get_legal_moves g (active_player g) with
                     | [] => (Raise IndexError, k)
                     | best_move :: _ =>
                         if mx
                         then alphabeta_max
                                (fun a b move =>
                                   alphabeta q d (forecast_move g move) a b (negb mx))
                                (get_legal_moves g (active_player g)) alpha beta
                                neg_inf best_move k
                         else alphabeta_min
                                (fun a b move =>
                                   alphabeta q d (forecast_move g move) a b (negb mx))
                                (get_legal_moves g (active_player g)) alpha beta
                                inf best_move k
                     end)).
    unfold leaf. rewrite same_score, same_self.
    destruct (nonzero (utility g (self p))); [eapply repeats_now; intros; reflexivity | ].
    destruct (get_legal_moves g (active_player g)) as [|m0 rest];
      [eapply repeats_now; intros; reflexivity | ].
    destruct mx.
    + apply alphabeta_max_repeats. intros a b move. apply IH.
    + apply alphabeta_min_repeats. intros a b move. apply IH.
Qed.

End TimerFree.

Section TimerFreeFacts.

Context {Board Player : Type} `{BoardAPI Board Player}.

Lemma search_call_repeats (p q : CustomPlayer Board Player) game depth :
  score q = score p -> self q = self p -> method q = method p ->
  repeats q (search_call p game depth) (search_call q game depth).
Proof.
  intros Hs Hself Hm. unfold search_call. rewrite Hm.
  destruct (String.eqb (method p) "minimax").
  - apply minimax_repeats; assumption.
  - apply alphabeta_repeats; assumption.
Qed.

Lemma no_timeout_clean (q : CustomPlayer Board Player) (k k' : nat) :
  (forall j, out_of_time q j = false) -> clean q k k'.
Proof. intros Hq j _ _. apply Hq. Qed.

(** X6: a search that does not time out gives an outcome and makes a number
    of timer readings that depend on the depth, the state, the layer and the
    evaluator only: run again after any number of earlier readings, under any
    timer that stays over the threshold meanwhile, it does the same. *)
Theorem search_result_ignores_timer
    (p q : CustomPlayer Board Player) (depth : nat) (game : Board)
    (maximizing_player : bool) (alpha beta : float)
    (k k2 : nat) (r : Outcome (float * Move)) (k' : nat) :
  score q = score p ->
  self q = self p ->
  r <> Raise Timeout ->
  clean q k2 (k2 + (k' - k)) ->
  (minimax p depth game maximizing_player k = (r, k') ->
   minimax q depth game maximizing_player k2 = (r, (k2 + (k' - k))%nat))
  /\ (alphabeta p depth game alpha beta maximizing_player k = (r, k') ->
      alphabeta q depth game alpha beta maximizing_player k2 = (r, (k2 + (k' - k))%nat)).
Proof.
  intros Hs Hself Hr Hclean. split; intros E.
  - destruct (minimax_repeats p q Hs Hself depth game maximizing_player k r k' E Hr)
      as (_ & Hq).
    apply Hq. exact Hclean.
  - destruct (alphabeta_repeats p q Hs Hself depth game alpha beta maximizing_player
                k r k' E Hr) as (_ & Hq).
    apply Hq. exact Hclean.
Qed.

(** X7: iterative deepening that completed the depths 0 .. D and timed out
    at depth D+1 returns the move that a single search at the fixed depth D
    returns when it is given an unbounded budget. *)
Theorem deepening_returns_fixed_depth_move
    (p q : CustomPlayer Board Player) (game : Board) (legal_moves : list Move)
    (tl tl2 : nat -> float) (rnd rnd2 : nat) (fallback : Move)
    (D : nat) (res : nat -> float * Move) (ks : nat -> nat) (k' fuel fuel2 : nat) :
  iterative p = true ->
  iterative q = false ->
  search_depth q = D ->
  method q = method p ->
  score q = score p ->
  self q = self p ->
  (forall j, (tl2 j <? TIMER_THRESHOLD q)%float = false) ->
  legal_moves <> [] ->
  random_choice rnd (get_legal_moves game (active_player game)) = Some fallback ->
  method p = "minimax"%string \/ method p = "alphabeta"%string ->
  ks O = O ->
  (forall i, (i <= D)%nat ->
     search_call (set_time_left p tl) game i (ks i) = (Return (res i), ks (S i))) ->
  search_call (set_time_left p tl) game (S D) (ks (S D)) = (Raise Timeout, k') ->
  (S D < fuel)%nat ->
  exists n,
    get_move fuel p game legal_moves tl rnd = Some (Return (snd (res D)), k')
    /\ get_move fuel2 q game legal_moves tl2 rnd2 = Some (Return (snd (res D)), n).
Proof.
  intros Hit Hfix Hd Hmq Hs Hself Htl2 Hne Hrnd Hm Hk0 Hdone Hout Hfuel.
  exists (ks (S D) - ks D)%nat. split.
  - unfold get_move.
    destruct legal_moves as [|m0 rest]; [congruence | ].
    simpl length. simpl Nat.eqb. cbv iota.
    rewrite Hrnd. simpl iterative. rewrite Hit.
    pose proof (deepen_aborted (set_time_left p tl) game res ks k' Hm (S D) O
                  fallback fuel) as Hd'.
    rewrite Hk0 in Hd'. simpl in Hd'. apply Hd'.
    + intros i _ Hi. apply Hdone. lia.
    + exact Hout.
    + exact Hfuel.
  - unfold get_move.
    destruct legal_moves as [|m0 rest]; [congruence | ].
    simpl length. simpl Nat.eqb. cbv iota.
    destruct (random_choice_some rnd2 (get_legal_moves game (active_player game)))
      as [b2 Hb2].
    { intros Hnil. rewrite Hnil in Hrnd. discriminate Hrnd. }
    rewrite Hb2. simpl iterative. rewrite Hfix. simpl search_depth. rewrite Hd.
    assert (Hmq' : method (set_time_left q tl2) = "minimax"%string
                   \/ method (set_time_left q tl2) = "alphabeta"%string)
      by (simpl; rewrite Hmq; exact Hm).
    rewrite (search_by_method_call (set_time_left q tl2) game D b2 O Hmq').
    destruct (search_call_repeats (set_time_left p tl) (set_time_left q tl2) game D
                Hs Hself Hmq (ks D) (Return (res D)) (ks (S D)))
      as (_ & Hq); [apply Hdone; lia | discriminate | ].
    rewrite (Hq O) by (apply no_timeout_clean; exact Htl2).
    destruct (res D) as [s m]. reflexivity.
Qed.

End TimerFreeFacts.

(** ** What the searches compute *)

Section Values.

Context {Board Player : Type} `{BoardAPI Board Player}.

(** X8: with an unbounded budget, for any window alpha < beta, [alphabeta]
    returns the pair of [minimax] when the score of [minimax] lies strictly
    inside the window (or is NaN); a score of [minimax] at or under alpha
    gives a score at or under alpha, and one at or over beta gives a score at
    or over beta.  It never reads the timer more often than [minimax]. *)
Theorem alphabeta_window
    (p : CustomPlayer Board Player) (depth : nat) (game : Board)
    (maximizing_player : bool) (alpha beta : float) (k k2 : nat) :
  (forall j, out_of_time p j = false) ->
  (forall g, nonzero (utility g (self p)) = false ->
             get_legal_moves g (active_player g) <> []) ->
  (alpha <? beta)%float = true ->
  exists v m r m' k' k2',
    minimax p depth game maximizing_player k = (Return (v, m), k')
    /\ alphabeta p depth game alpha beta maximizing_player k2 = (Return (r, m'), k2')
    /\ (k2' - k2 <= k' - k)%nat
    /\ ((alpha <? v)%float = true -> (v <? beta)%float = true -> (r, m') = (v, m))
    /\ (fnan v = true -> (r, m') = (v, m))
    /\ ((v <=? alpha)%float = true -> (r <=? alpha)%float = true)
    /\ ((beta <=? v)%float = true -> (beta <=? r)%float = true).
Proof.
  intros Htime Hmoves Hw.
  destruct (alphabeta_prunes p Htime Hmoves depth game maximizing_player
              alpha beta Hw k k2)
    as ([v m] & [r m'] & k' & k2' & E & E' & Rxy & L).
  exists v, m, r, m', k', k2'.
  split; [exact E | split; [exact E' | split; [lia | ]]].
  unfold same_or_outside in Rxy. cbn [fst snd] in Rxy.
  repeat split.
  - intros H1 H2. destruct Rxy as [Rxy | [(A & B & _) | (A & B & _)]];
      [exact Rxy | exfalso; float_lia | exfalso; float_lia].
  - intros Hn. destruct Rxy as [Rxy | [(A & B & _) | (A & B & _)]];
      [exact Rxy | exfalso; float_lia | exfalso; float_lia].
  - intros Hv. destruct Rxy as [Rxy | [(A & B & _) | (A & B & _)]];
      [injection Rxy as -> ->; exact Hv | exact B | exfalso; float_lia].
  - intros Hv. destruct Rxy as [Rxy | [(A & B & _) | (A & B & _)]];
      [injection Rxy as -> ->; exact Hv | exfalso; float_lia | exact B].
Qed.

Section BestOfLoop.

Variable cm : Move -> Search (float * Move).
Variable f : Move -> float.
Hypothesis cm_scores : forall move k, exists m k', cm move k = (Return (f move, m), k').

(** The maximizing loop keeps the first move whose score is not exceeded. *)
Lemma minimax_max_first_best moves : forall bs bm k,
  fnan bs = false ->
  exists V M k',
    minimax_max cm moves bs bm k = (Return (V, M), k')
    /\ (((V, M) = (bs, bm) /\ forall x, In x moves -> gtb (f x) bs = false)
        \/ exists l1 l2,
             moves = l1 ++ M :: l2 /\ V = f M /\ gtb V bs = true
             /\ (forall x, In x l1 -> geb (f x) V = false)
             /\ (forall x, In x l2 -> gtb (f x) V = false)).
Proof.
  induction moves as [|x rest IH]; intros bs bm k Hbs; simpl.
  - exists bs, bm, k. split; [reflexivity | left]. split; [reflexivity | intros x []].
  - destruct (cm_scores x k) as (m & k1 & ->).
    destruct (gtb (f x) bs) eqn:G.
    + destruct (IH (f x) x k1) as (V & M & k' & E & Hbest); [float_lia | ].
      exists V, M, k'. split; [exact E | right].
      destruct Hbest as [(EV & Hall) | (l1 & l2 & -> & -> & HV & H1 & H2)].
      * injection EV as -> ->. exists [], rest.
        split; [reflexivity | split; [reflexivity | split; [exact G | split]]].
        -- intros y [].
        -- exact Hall.
      * exists (x :: l1), l2.
        split; [reflexivity | split; [reflexivity | split; [float_lia | split]]].
        -- intros y [<- | Hy]; [float_lia | apply H1; exact Hy].
        -- exact H2.
    + destruct (IH bs bm k1 Hbs) as (V & M & k' & E & Hbest).
      exists V, M, k'. split; [exact E | ].
      destruct Hbest as [(EV & Hall) | (l1 & l2 & -> & -> & HV & H1 & H2)].
      * left. split; [exact EV | ]. intros y [<- | Hy]; [exact G | apply Hall; exact Hy].
      * right. exists (x :: l1), l2.
        split; [reflexivity | split; [reflexivity | split; [exact HV | split]]].
        -- intros y [<- | Hy]; [float_lia | apply H1; exact Hy].
        -- exact H2.
Qed.

(** The minimizing loop keeps the first move whose score is not undercut. *)
Lemma minimax_min_first_best moves : forall bs bm k,
  fnan bs = false ->
  exists V M k',
    minimax_min cm moves bs bm k = (Return (V, M), k')
    /\ (((V, M) = (bs, bm) /\ forall x, In x moves -> (f x <? bs)%float = false)
        \/ exists l1 l2,
             moves = l1 ++ M :: l2 /\ V = f M /\ (V <? bs)%float = true
             /\ (forall x, In x l1 -> (f x <=? V)%float = false)
             /\ (forall x, In x l2 -> (f x <? V)%float = false)).
Proof.
  induction moves as [|x rest IH]; intros bs bm k Hbs; simpl.
  - exists bs, bm, k. split; [reflexivity | left]. split; [reflexivity | intros x []].
  - destruct (cm_scores x k) as (m & k1 & ->).
    destruct (f x <? bs)%float eqn:G.
    + destruct (IH (f x) x k1) as (V & M & k' & E & Hbest); [float_lia | ].
      exists V, M, k'. split; [exact E | right].
      destruct Hbest as [(EV & Hall) | (l1 & l2 & -> & -> & HV & H1 & H2)].
      * injection EV as -> ->. exists [], rest.
        split; [reflexivity | split; [reflexivity | split; [exact G | split]]].
        -- intros y [].
        -- exact Hall.
      * exists (x :: l1), l2.
        split; [reflexivity | split; [reflexivity | split; [float_lia | split]]].
        -- intros y [<- | Hy]; [float_lia | apply H1; exact Hy].
        -- exact H2.
    + destruct (IH bs bm k1 Hbs) as (V & M & k' & E & Hbest).
      exists V, M, k'. split; [exact E | ].
      destruct Hbest as [(EV & Hall) | (l1 & l2 & -> & -> & HV & H1 & H2)].
      * left. split; [exact EV | ]. intros y [<- | Hy]; [exact G | apply Hall; exact Hy].
      * right. exists (x :: l1), l2.
        split; [reflexivity | split; [reflexivity | split; [exact HV | split]]].
        -- intros y [<- | Hy]; [float_lia | apply H1; exact Hy].
        -- exact H2.
Qed.

End BestOfLoop.

(** With an unbounded budget on a board that keeps its contract, a search
    returns, and its score is the same wherever the count of readings
    starts. *)
Lemma minimax_score_anywhere (p : CustomPlayer Board Player) depth game mx :
  (forall j, out_of_time p j = false) ->
  (forall g, nonzero (utility g (self p)) = false ->
             get_legal_moves g (active_player g) <> []) ->
  forall k, exists m k',
    minimax p depth game mx k
    = (Return (returned_score (minimax p depth game mx O), m), k').
Proof.
  intros Htime Hmoves k.
  destruct (alphabeta_prunes p Htime Hmoves depth game mx neg_inf inf eq_refl O O)
    as ([v m] & _ & k0 & _ & E & _).
  destruct (minimax_repeats p p eq_refl eq_refl depth game mx O _ _ E ltac:(discriminate))
    as (_ & Hk).
  exists m, (k + (k0 - 0))%nat.
  rewrite (Hk k) by (apply no_timeout_clean; exact Htime).
  unfold returned_score. rewrite E. reflexivity.
Qed.

(** X9: on a maximizing layer, with an unbounded budget, [minimax] returns
    the first legal move whose subtree score no other move exceeds, with that
    score: earlier moves score strictly less (or NaN), later moves do not
    score more.  When no move scores over -inf it returns -inf with the
    first legal move. *)
Theorem minimax_max_layer
    (p : CustomPlayer Board Player) (d : nat) (game : Board) (k : nat) :
  (forall j, out_of_time p j = false) ->
  (forall g, nonzero (utility g (self p)) = false ->
             get_legal_moves g (active_player g) <> []) ->
  nonzero (utility game (self p)) = false ->
  let moves := get_legal_moves game (active_player game) in
  let f move := returned_score (minimax p d (forecast_move game move) false O) in
  exists V M k',
    minimax p (S d) game true k = (Return (V, M), k')
    /\ ((V = neg_inf /\ (exists rest, moves = M :: rest)
         /\ forall x, In x moves -> gtb (f x) neg_inf = false)
        \/ exists l1 l2,
             moves = l1 ++ M :: l2 /\ V = f M
             /\ (forall x, In x l1 -> geb (f x) V = false)
             /\ (forall x, In x l2 -> gtb (f x) V = false)).
Proof.
  intros Htime Hmoves Hu moves f. simpl. rewrite Htime, Hu.
  pose proof (Hmoves game Hu) as Hne. fold moves in Hne |- *.
  destruct moves as [|m0 rest] eqn:Emoves; [congruence | ].
  destruct (minimax_max_first_best
              (fun move => minimax p d (forecast_move game move) false) f
              (fun move k0 => minimax_score_anywhere p d (forecast_move game move) false
                                Htime Hmoves k0)
              (m0 :: rest) neg_inf m0 (S k) eq_refl)
    as (V & M & k' & E & Hbest).
  exists V, M, k'. split; [exact E | ].
  destruct Hbest as [(EV & Hall) | (l1 & l2 & E12 & EV & _ & H1 & H2)].
  - left. injection EV as -> ->. split; [reflexivity | split; [eauto | exact Hall]].
  - right. exists l1, l2. auto.
Qed.

(** X10: on a minimizing layer, with an unbounded budget, [minimax] returns
    the first legal move whose subtree score no other move undercuts, with
    that score.  When no move scores under +inf it returns +inf with the
    first legal move. *)
Theorem minimax_min_layer
    (p : CustomPlayer Board Player) (d : nat) (game : Board) (k : nat) :
  (forall j, out_of_time p j = false) ->
  (forall g, nonzero (utility g (self p)) = false ->
             get_legal_moves g (active_player g) <> []) ->
  nonzero (utility game (self p)) = false ->
  let moves := get_legal_moves game (active_player game) in
  let f move := returned_score (minimax p d (forecast_move game move) true O) in
  exists V M k',
    minimax p (S d) game false k = (Return (V, M), k')
    /\ ((V = inf /\ (exists rest, moves = M :: rest)
         /\ forall x, In x moves -> (f x <? inf)%float = false)
        \/ exists l1 l2,
             moves = l1 ++ M :: l2 /\ V = f M
             /\ (forall x, In x l1 -> (f x <=? V)%float = false)
             /\ (forall x, In x l2 -> (f x <? V)%float = false)).
Proof.
  intros Htime Hmoves Hu moves f. simpl. rewrite Htime, Hu.
  pose proof (Hmoves game Hu) as Hne. fold moves in Hne |- *.
  destruct moves as [|m0 rest] eqn:Emoves; [congruence | ].
  destruct (minimax_min_first_best
              (fun move => minimax p d (forecast_move game move) true) f
              (fun move k0 => minimax_score_anywhere p d (forecast_move game move) true
                                Htime Hmoves k0)
              (m0 :: rest) inf m0 (S k) eq_refl)
    as (V & M & k' & E & Hbest).
  exists V, M, k'. split; [exact E | ].
  destruct Hbest as [(EV & Hall) | (l1 & l2 & E12 & EV & _ & H1 & H2)].
  - left. injection EV as -> ->. split; [reflexivity | split; [eauto | exact Hall]].
  - right. exists l1, l2. auto.
Qed.

End Values.

(** ** When get_move ends *)

Section Ending.

Context {Board Player : Type} `{BoardAPI Board Player}.

Lemma assign_best_cases (r : Outcome (float * Move) * nat) best_move :
  (exists s m k, r = (Return (s, m), k) /\ assign_best r best_move = (None, m, k))
  \/ (exists e k, r = (Raise e, k) /\ assign_best r best_move = (Some e, best_move, k)).
Proof.
  destruct r as [[[s m] | e] k]; simpl; [left | right]; eauto.
Qed.

(** How the [try] body used the timer. *)
Lemma search_by_method_traced (p : CustomPlayer Board Player) game depth best_move k e bm k' :
  search_by_method p game depth best_move k = (e, bm, k') ->
  (k <= k')%nat
  /\ match e with
     | Some Timeout => (k < k')%nat /\ clean p k (k' - 1) /\ out_of_time p (k' - 1) = true
     | _ => clean p k k'
     end
  /\ (method p = "minimax"%string \/ method p = "alphabeta"%string -> (k < k')%nat).
Proof.
  intros E.
  assert (Hsearch : forall r : Outcome (float * Move) * nat,
             traced p k r /\ (k < snd r)%nat ->
             assign_best r best_move = (e, bm, k') ->
             (k <= k')%nat
             /\ match e with
                | Some Timeout =>
                    (k < k')%nat /\ clean p k (k' - 1) /\ out_of_time p (k' - 1) = true
                | _ => clean p k k'
                end
             /\ (k < k')%nat).
  { intros r (Ht & Hlt) Ea.
    destruct (assign_best_cases r best_move)
      as [(s & m & k0 & -> & Ea') | (e0 & k0 & -> & Ea')];
      rewrite Ea' in Ea; inversion Ea; subst; simpl in Hlt;
      destruct Ht as (Hle & Ht); (split; [exact Hle | split; [ | exact Hlt]]).
    - exact Ht.
    - destruct e0; exact Ht. }
  destruct (search_by_method_cases p game depth best_move k) as [E' | [E' | E']];
    rewrite E' in E.
  - destruct (Hsearch _ (minimax_traced p depth game true k) E) as (A & B & C). auto.
  - destruct (Hsearch _ (alphabeta_traced p depth game neg_inf inf true k) E)
      as (A & B & C). auto.
  - inversion E; subst. split; [lia | split; [apply clean_empty | ]].
    intros Hm. exfalso. unfold search_by_method in E'.
    destruct Hm as [Hm | Hm]; rewrite Hm in E'; simpl in E'.
    + destruct (minimax_traced p depth game true k') as (_ & Hlt).
      destruct (minimax p depth game true k') as [[[s m] | e0] k1]; simpl in *;
        inversion E'; lia.
    + destruct (alphabeta_traced p depth game neg_inf inf true k') as (_ & Hlt).
      destruct (alphabeta p depth game neg_inf inf true k') as [[[s m] | e0] k1];
        simpl in *; inversion E'; lia.
Qed.

(** Where a computation can end when reading [j] is the first one under the
    threshold. *)
Lemma ends_by_first_low (p : CustomPlayer Board Player) (k j k' : nat) (e : option Exn) :
  (k <= j)%nat -> clean p k j -> out_of_time p j = true ->
  (k <= k')%nat ->
  match e with
  | Some Timeout => (k < k')%nat /\ clean p k (k' - 1) /\ out_of_time p (k' - 1) = true
  | _ => clean p k k'
  end ->
  (k' <= S j)%nat /\ (e <> Some Timeout -> (k' <= j)%nat /\ clean p k' j).
Proof.
  intros Hkj Hclean Hlow Hle He.
  assert (Hno : forall a b, clean p a b -> (a <= j)%nat -> (b <= j)%nat).
  { intros a b Hab Ha. destruct (Nat.le_gt_cases b j) as [Hb | Hb]; [exact Hb | ].
    rewrite (Hab j) in Hlow by lia. discriminate Hlow. }
  assert (Hrest : forall b, (k <= b)%nat -> clean p b j)
    by (intros b Hb i H1 H2; apply Hclean; lia).
  destruct e as [[|]|].
  - destruct He as (Hlt & Hc & _). pose proof (Hno _ _ Hc Hkj). split; [lia | congruence].
  - pose proof (Hno _ _ He Hkj). split; [lia | intros _; split; [lia | apply Hrest; lia]].
  - pose proof (Hno _ _ He Hkj). split; [lia | intros _; split; [lia | apply Hrest; lia]].
Qed.

Lemma deepen_ends (p : CustomPlayer Board Player) game (j : nat) :
  method p = "minimax"%string \/ method p = "alphabeta"%string ->
  out_of_time p j = true ->
  forall fuel depth best_move k,
    (k <= j)%nat -> clean p k j -> (j - k < fuel)%nat ->
    exists r k',
      deepen fuel p game depth best_move k = Some (r, k')
      /\ (k' <= S j)%nat /\ r <> Raise Timeout.
Proof.
  intros Hm Hlow. induction fuel as [|fuel IH]; intros depth best_move k Hkj Hclean Hfuel;
    [lia | ]. simpl.
  destruct (search_by_method p game depth best_move k) as [[e bm] k1] eqn:E.
  destruct (search_by_method_traced p game depth best_move k e bm k1 E) as (Hle & He & Hlt).
  destruct (ends_by_first_low p k j k1 e Hkj Hclean Hlow Hle He) as (Hb & Hcont).
  destruct e as [e|].
  - exists (on_exception e bm), k1.
    split; [reflexivity | split; [exact Hb | apply on_exception_not_timeout]].
  - destruct (Hcont ltac:(discriminate)) as (Hk1 & Hc1).
    specialize (Hlt Hm).
    apply IH; [exact Hk1 | exact Hc1 | lia].
Qed.

(** X11: when the timer first reads under the threshold at its reading
    number j, [get_move] returns after at most j+1 readings: it ends, with a
    move or [IndexError], and never reads the timer again after the reading
    that was under the threshold.  (In iterative mode this needs one of the
    two methods.) *)
Theorem get_move_ends_at_first_low_reading
    (fuel : nat) (p : CustomPlayer Board Player) (game : Board)
    (legal_moves : list Move) (tl : nat -> float) (rnd j : nat) :
  (iterative p = true ->
   method p = "minimax"%string \/ method p = "alphabeta"%string) ->
  (forall i, (i < j)%nat -> (tl i <? TIMER_THRESHOLD p)%float = false) ->
  (tl j <? TIMER_THRESHOLD p)%float = true ->
  (j < fuel)%nat ->
  exists r k',
    get_move fuel p game legal_moves tl rnd = Some (r, k')
    /\ (k' <= S j)%nat /\ r <> Raise Timeout.
Proof.
  intros Hm Hhigh Hlow Hfuel. unfold get_move.
  destruct (length legal_moves =? 0)%nat.
  { exists (Return no_move), O. split; [reflexivity | split; [lia | discriminate]]. }
  destruct (random_choice rnd _) as [b|].
  2: { exists (Raise IndexError), O. split; [reflexivity | split; [lia | discriminate]]. }
  assert (Hclean : clean (set_time_left p tl) 0 j)
    by (intros i _ Hi; apply Hhigh; exact Hi).
  destruct (iterative (set_time_left p tl)) eqn:Hit.
  - apply (deepen_ends (set_time_left p tl)); try assumption; try lia.
    apply Hm. exact Hit.
  - destruct (search_by_method (set_time_left p tl) game _ b 0%nat) as [[e bm] k1] eqn:E.
    destruct (search_by_method_traced _ game _ b 0%nat e bm k1 E) as (Hle & He & _).
    destruct (ends_by_first_low (set_time_left p tl) 0 j k1 e ltac:(lia) Hclean Hlow Hle He)
      as (Hb & _).
    destruct e as [e|].
    + exists (on_exception e bm), k1.
      split; [reflexivity | split; [exact Hb | apply on_exception_not_timeout]].
    + exists (Return bm), k1. split; [reflexivity | split; [exact Hb | discriminate]].
Qed.

(** X12: with a method other than 'minimax' and 'alphabeta' no search is
    made: at a fixed depth [get_move] returns the random fallback move after
    no reading of the timer, and with iterative deepening it never returns,
    whatever the timer reads. *)
Theorem get_move_unknown_method
    (fuel : nat) (p : CustomPlayer Board Player) (game : Board)
    (legal_moves : list Move) (tl : nat -> float) (rnd : nat) (fallback : Move) :
  String.eqb (method p) "minimax" = false ->
  String.eqb (method p) "alphabeta" = false ->
  legal_moves <> [] ->
  random_choice rnd (get_legal_moves game (active_player game)) = Some fallback ->
  get_move fuel p game legal_moves tl rnd
  = if iterative p then None else Some (Return fallback, O).
Proof.
  intros H1 H2 Hne Hrnd. unfold get_move.
  destruct legal_moves as [|m0 rest]; [congruence | ].
  simpl length. simpl Nat.eqb. cbv iota. rewrite Hrnd. simpl iterative.
  destruct (iterative p).
  - generalize O at 1 as depth. generalize O as k. generalize fallback as b.
    induction fuel as [|fuel IH]; intros b k depth; simpl; [reflexivity | ].
    rewrite search_by_method_other by assumption. apply IH.
  - rewrite search_by_method_other by assumption. reflexivity.
Qed.

(** X13: at a fixed depth, with an unbounded budget, [get_move] returns the
    same move with method 'alphabeta' as with method 'minimax', after no more
    timer readings. *)
Theorem fixed_depth_methods_agree
    (p q : CustomPlayer Board Player) (game : Board) (legal_moves : list Move)
    (tl tl2 : nat -> float) (rnd fuel fuel2 : nat) :
  iterative p = false ->
  iterative q = false ->
  method p = "minimax"%string ->
  method q = "alphabeta"%string ->
  search_depth q = search_depth p ->
  score q = score p ->
  self q = self p ->
  (forall j, (tl j <? TIMER_THRESHOLD p)%float = false) ->
  (forall j, (tl2 j <? TIMER_THRESHOLD q)%float = false) ->
  (forall g, nonzero (utility g (self p)) = false ->
             get_legal_moves g (active_player g) <> []) ->
  legal_moves <> [] ->
  get_legal_moves game (active_player game) <> [] ->
  exists m k1 k2,
    get_move fuel p game legal_moves tl rnd = Some (Return m, k1)
    /\ get_move fuel2 q game legal_moves tl2 rnd = Some (Return m, k2)
    /\ (k2 <= k1)%nat.
Proof.
  intros Hp Hq Hmp Hmq Hd Hs Hself Htl Htl2 Hmoves Hne Hboard.
  destruct (alphabeta_prunes (set_time_left p tl) Htl Hmoves (search_depth p) game true
              neg_inf inf eq_refl O O)
    as (x & y & k1 & k2 & E1 & E2 & Rxy & L).
  apply full_window_same in Rxy. subst y.
  destruct (alphabeta_repeats (set_time_left p tl) (set_time_left q tl2) Hs Hself
              (search_depth p) game neg_inf inf true O (Return x) k2 E2
              ltac:(discriminate)) as (_ & E3).
  specialize (E3 O (no_timeout_clean (set_time_left q tl2) _ _ Htl2)).
  destruct x as [s m]. exists m, k1, (k2 - 0)%nat.
  unfold get_move.
  destruct legal_moves as [|m0 rest]; [congruence | ].
  simpl length. simpl Nat.eqb. cbv iota.
  destruct (random_choice_some rnd _ Hboard) as [b ->].
  simpl iterative. rewrite Hp, Hq. simpl search_depth. rewrite Hd.
  rewrite (search_by_method_call (set_time_left p tl)) by (left; exact Hmp).
  rewrite (search_by_method_call (set_time_left q tl2)) by (right; exact Hmq).
  unfold search_call.
  change (method (set_time_left p tl)) with (method p).
  change (method (set_time_left q tl2)) with (method q).
  rewrite Hmp, Hmq.
  change ("minimax" =? "minimax")%string with true.
  change ("alphabeta" =? "minimax")%string with false.
  cbv iota. rewrite E1, E3. simpl.
  split; [reflexivity | split; [reflexivity | lia]].
Qed.

(** X14: called at a depth of at least one on a position of zero utility, a
    search that returns, returns one of the legal moves of the position, on
    either layer and for any window. *)
Theorem search_returns_legal_move
    (p : CustomPlayer Board Player) (d : nat) (game : Board)
    (maximizing_player : bool) (alpha beta : float) (k : nat)
    (V : float) (M : Move) (k' : nat) :
  nonzero (utility game (self p)) = false ->
  minimax p (S d) game maximizing_player k = (Return (V, M), k')
  \/ alphabeta p (S d) game alpha beta maximizing_player k = (Return (V, M), k') ->
  In M (get_legal_moves game (active_player game)).
Proof.
  intros Hu [E | E].
  - eapply minimax_root_move; eassumption.
  - eapply alphabeta_root_move; eassumption.
Qed.

End Ending.

(** ** Runs on concrete boards *)

Section Runs.

Import Tree.
Local Open Scope string_scope.

(** The tree boards keep the contract of [isolation.Board]: zero utility
    means the player to move has a move. *)
Lemma tree_has_moves (me : Side) (g : Position) :
  nonzero (utility g me) = false -> get_legal_moves g (active_player g) <> [].
Proof.
  destruct g as [via w h a u t n]. cbn.
  unfold p_utility, p_is_loser, p_is_winner. cbn.
  destruct me, a; cbn; destruct u as [mu au], t as [mt a_t]; cbn;
    try (destruct mu; cbn; intros E; [discriminate E | discriminate]);
    try (destruct mt; cbn; intros E; [discriminate E | discriminate]).
Qed.

(** Pruning at work: one node of [fork] is never visited by [alphabeta]. *)
Example fork_is_pruned :
  minimax (patient 2 false "minimax") 2 fork true 0%nat
  = (Return (custom_score fork_a1 Us, (1, 2)), 7%nat)
  /\ snd (alphabeta (patient 2 false "alphabeta") 2 fork neg_inf inf true 0%nat) = 6%nat.
Proof. split; vm_compute; reflexivity. Qed.

(** C1: iterative deepening starts at depth 0, whose search returns the
    opponent's last move; when the timer runs out during depth 1, [get_move]
    returns that cell, which is not among the legal moves. *)
Theorem get_move_returns_opponent_cell :
  get_legal_moves corner (active_player corner) = [(2, 1)]
  /\ get_move 2 (player 3 true "minimax") corner [(2, 1)] (timer 1 100 0) 0%nat
     = Some (Return (1, 2), 2%nat)
  /\ ~ In (1, 2) [(2, 1)]
  /\ (1, 2) <> no_move.
Proof.
  split; [reflexivity | split; [vm_compute; reflexivity | split]].
  - intros [E | []]. discriminate E.
  - discriminate.
Qed.

(** C9: with a single legal move, (2,1), a timeout inside the depth-1 search
    makes [get_move] return (1,2), the result of the depth-0 search. *)
Theorem get_move_misses_only_move :
  get_move 2 (player 3 true "alphabeta") corner [(2, 1)] (timer 2 100 0) 0%nat
  = Some (Return (1, 2), 3%nat)
  /\ (1, 2) <> (2, 1).
Proof. split; [vm_compute; reflexivity | discriminate]. Qed.

(** C7: on the 7-row, 3-column board [tall], [custom_score] measures the row
    against half the width and the column against half the height; the value
    differs from the one that measures rows against the height. *)
Theorem custom_score_swaps_axes :
  custom_score tall Us
  = (float_of_int 0 - abs (5 - 3 / 2) * 0.1 - abs (1 - 7 / 2) * 0.1)%float
  /\ center_mobility tall Us
     = (float_of_int 0 - abs (5 - 7 / 2) * 0.1 - abs (1 - 3 / 2) * 0.1)%float
  /\ custom_score tall Us <> center_mobility tall Us.
Proof.
  split; [vm_compute; reflexivity | split; [vm_compute; reflexivity | ]].
  intros E.
  assert (L : (custom_score tall Us <? center_mobility tall Us)%float = true)
    by (vm_compute; reflexivity).
  rewrite E, ltb_irrefl in L. discriminate L.
Qed.

Lemma alphabeta_returns_minimax_result_witness :
  (forall j, out_of_time (patient 2 false "alphabeta") j = false)
  /\ (forall g, nonzero (utility g (self (patient 2 false "alphabeta"))) = false ->
                get_legal_moves g (active_player g) <> [])
  /\ exists result k' k2',
       minimax (patient 2 false "alphabeta") 2 fork true 0%nat = (Return result, k')
       /\ alphabeta (patient 2 false "alphabeta") 2 fork neg_inf inf true 0%nat
          = (Return result, k2')
       /\ (k2' - 0 <= k' - 0)%nat.
Proof.
  assert (Ht : forall j, out_of_time (patient 2 false "alphabeta") j = false)
    by (intros j; reflexivity).
  split; [exact Ht | split; [apply tree_has_moves | ]].
  apply alphabeta_returns_minimax_result; [exact Ht | apply tree_has_moves].
Defined.

Lemma timeout_keeps_last_completed_depth_witness :
  get_move 2 (player 3 true "minimax") corner [(2, 1)] (timer 2 100 0) 0%nat
  = Some (Return (1, 2), 3%nat).
Proof.
  apply (timeout_keeps_last_completed_depth
           (player 3 true "minimax") corner [(2, 1)] (timer 2 100 0) 0%nat (2, 1)
           1%nat (fun _ => (custom_score corner Us, (1, 2))) (fun i => i) 3%nat 2%nat).
  - reflexivity.
  - discriminate.
  - reflexivity.
  - left; reflexivity.
  - reflexivity.
  - intros i Hi. destruct i; [vm_compute; reflexivity | lia].
  - vm_compute; reflexivity.
  - lia.
Defined.

Lemma leaf_returns_score_and_last_move_witness :
  out_of_time (patient 3 true "minimax") 0%nat = false
  /\ minimax (patient 3 true "minimax") 0 corner true 0%nat
     = (Return (custom_score corner Us, (1, 2)), 1%nat).
Proof.
  split; [reflexivity | ].
  exact (proj1 (leaf_returns_score_and_last_move
                  (patient 3 true "minimax") 0%nat corner true neg_inf inf 0%nat
                  eq_refl)).
Defined.

Lemma evaluators_check_terminal_first_witness :
  is_loser corner_6 Us = true /\ custom_score corner_6 Us = neg_inf.
Proof.
  split; [reflexivity | ].
  exact (proj2 (proj2 (proj1 (evaluators_check_terminal_first corner_6 Us eq_refl)
                               eq_refl))).
Defined.

Lemma get_move_fallback_from_board_witness :
  get_move 1 (player 3 true "minimax") corner_6 [(0, 2)] (timer 5 100 0) 0%nat
  = Some (Raise IndexError, 0%nat).
Proof.
  apply get_move_fallback_from_board; [discriminate | reflexivity].
Defined.

Lemma fixed_depth_returns_legal_move_witness :
  exists r k,
    get_move 0 (player 3 false "minimax") corner [(2, 1)] (timer 9 100 0) 0%nat
    = Some (r, k)
    /\ r <> Raise Timeout
    /\ forall m, r = Return m -> In m [(2, 1)].
Proof.
  apply (fixed_depth_returns_legal_move 0%nat (player 3 false "minimax") corner
           [(2, 1)] (timer 9 100 0) 0%nat 2%nat);
    first [reflexivity | discriminate].
Defined.

Lemma fixed_depth_returns_only_move_witness :
  get_move 0 (player 3 false "alphabeta") corner [(2, 1)] (timer 9 100 0) 0%nat
  = Some (Return (2, 1), 4%nat)
  /\ (2, 1) = (2, 1).
Proof.
  assert (E : get_move 0 (player 3 false "alphabeta") corner [(2, 1)]
                (timer 9 100 0) 0%nat = Some (Return (2, 1), 4%nat))
    by (vm_compute; reflexivity).
  split; [exact E | ].
  apply (fixed_depth_returns_only_move 0%nat (player 3 false "alphabeta") corner
           (2, 1) (timer 9 100 0) 0%nat 2%nat (2, 1) 4%nat);
    first [reflexivity | exact E].
Defined.

Lemma custom_score_on_square_board_witness :
  custom_score corner Us = center_mobility corner Us.
Proof. apply custom_score_on_square_board; reflexivity. Defined.

Lemma unbounded_budget_never_returns_witness :
  get_move 5 (player 3 true "minimax") corner [(2, 1)] (fun _ => 100%float) 0%nat
  = None.
Proof.
  apply unbounded_budget_never_returns.
  - reflexivity.
  - left; reflexivity.
  - intros j; reflexivity.
  - apply tree_has_moves.
  - discriminate.
  - discriminate.
Defined.

Lemma get_move_legal_or_last_move_witness :
  get_move 2 (player 3 true "minimax") corner [(2, 1)] (timer 1 100 0) 0%nat
  = Some (Return (1, 2), 2%nat)
  /\ (In (1, 2) [(2, 1)] \/ (1, 2) = last_player_move corner (inactive_player corner)).
Proof.
  assert (E : get_move 2 (player 3 true "minimax") corner [(2, 1)]
                (timer 1 100 0) 0%nat = Some (Return (1, 2), 2%nat))
    by (vm_compute; reflexivity).
  split; [exact E | ].
  apply (get_move_legal_or_last_move 2%nat (player 3 true "minimax") corner
           [(2, 1)] (timer 1 100 0) 0%nat (1, 2) 2%nat);
    first [reflexivity | discriminate | exact E].
Defined.

Lemma search_result_ignores_timer_witness :
  minimax (set_time_left (player 2 false "minimax") (timer 10 100 0)) 2 fork true 3%nat
  = (Return (custom_score fork_a1 Us, (1, 2)), 10%nat).
Proof.
  refine (proj1 (search_result_ignores_timer
                   (patient 2 false "minimax")
                   (set_time_left (player 2 false "minimax") (timer 10 100 0))
                   2%nat fork true neg_inf inf 0%nat 3%nat
                   (Return (custom_score fork_a1 Us, (1, 2))) 7%nat
                   eq_refl eq_refl _ _) _).
  - discriminate.
  - intros j _ Hj. do 10 (destruct j as [|j]; [reflexivity | ]). simpl in Hj. lia.
  - vm_compute; reflexivity.
Defined.

Lemma deepening_returns_fixed_depth_move_witness :
  exists n,
    get_move 3 (player 3 true "minimax") corner [(2, 1)] (timer 4 100 0) 0%nat
    = Some (Return (2, 1), 5%nat)
    /\ get_move 0 (player 1 false "minimax") corner [(2, 1)] (fun _ => 100%float) 0%nat
       = Some (Return (2, 1), n).
Proof.
  apply (deepening_returns_fixed_depth_move
           (player 3 true "minimax") (player 1 false "minimax") corner [(2, 1)]
           (timer 4 100 0) (fun _ => 100%float) 0%nat 0%nat (2, 1) 1%nat
           (fun i => match i with
                     | O => (custom_score corner Us, (1, 2))
                     | _ => (custom_score corner_1 Us, (2, 1))
                     end)
           (fun i => match i with O => 0 | S O => 1 | _ => 3 end)%nat
           5%nat 3%nat 0%nat).
  - reflexivity.
  - reflexivity.
  - reflexivity.
  - reflexivity.
  - reflexivity.
  - reflexivity.
  - intros j; reflexivity.
  - discriminate.
  - reflexivity.
  - left; reflexivity.
  - reflexivity.
  - intros i Hi. destruct i as [|[|i]]; [vm_compute; reflexivity .. | lia].
  - vm_compute; reflexivity.
  - lia.
Defined.

Lemma alphabeta_window_witness :
  exists v m r m' k' k2',
    minimax (patient 2 false "alphabeta") 2 fork true 0%nat = (Return (v, m), k')
    /\ alphabeta (patient 2 false "alphabeta") 2 fork (-5) 5 true 0%nat
       = (Return (r, m'), k2')
    /\ (k2' - 0 <= k' - 0)%nat
    /\ ((-5 <? v)%float = true -> (v <? 5)%float = true -> (r, m') = (v, m))
    /\ (fnan v = true -> (r, m') = (v, m))
    /\ ((v <=? -5)%float = true -> (r <=? -5)%float = true)
    /\ ((5 <=? v)%float = true -> (5 <=? r)%float = true).
Proof.
  apply (alphabeta_window (patient 2 false "alphabeta") 2%nat fork true (-5) 5 0%nat 0%nat).
  - intros j; reflexivity.
  - apply tree_has_moves.
  - reflexivity.
Defined.

Lemma minimax_max_layer_witness :
  exists V M k',
    minimax (patient 2 false "minimax") 2 fork true 0%nat = (Return (V, M), k').
Proof.
  destruct (minimax_max_layer (patient 2 false "minimax") 1%nat fork 0%nat)
    as (V & M & k' & E & _).
  - intros j; reflexivity.
  - apply tree_has_moves.
  - reflexivity.
  - exists V, M, k'. exact E.
Defined.

Lemma minimax_min_layer_witness :
  exists V M k',
    minimax (patient 1 false "minimax") 1 fork_a false 0%nat = (Return (V, M), k').
Proof.
  destruct (minimax_min_layer (patient 1 false "minimax") 0%nat fork_a 0%nat)
    as (V & M & k' & E & _).
  - intros j; reflexivity.
  - apply tree_has_moves.
  - reflexivity.
  - exists V, M, k'. exact E.
Defined.

Lemma get_move_ends_at_first_low_reading_witness :
  exists r k',
    get_move 3 (player 3 true "alphabeta") corner [(2, 1)] (timer 2 100 0) 0%nat
    = Some (r, k')
    /\ (k' <= 3)%nat /\ r <> Raise Timeout.
Proof.
  apply (get_move_ends_at_first_low_reading 3%nat (player 3 true "alphabeta") corner
           [(2, 1)] (timer 2 100 0) 0%nat 2%nat).
  - intros _; right; reflexivity.
  - intros i Hi. destruct i as [|[|i]]; [reflexivity .. | lia].
  - reflexivity.
  - lia.
Defined.

Lemma get_move_unknown_method_witness :
  get_move 7 (player 3 false "negamax") corner [(2, 1)] (timer 0 100 0) 0%nat
  = Some (Return (2, 1), 0%nat).
Proof.
  apply (get_move_unknown_method 7%nat (player 3 false "negamax") corner [(2, 1)]
           (timer 0 100 0) 0%nat (2, 1)).
  - reflexivity.
  - reflexivity.
  - discriminate.
  - reflexivity.
Defined.

Lemma fixed_depth_methods_agree_witness :
  exists m k1 k2,
    get_move 0 (player 2 false "minimax") fork [(1, 2); (2, 1)] (fun _ => 100%float) 0%nat
    = Some (Return m, k1)
    /\ get_move 0 (player 2 false "alphabeta") fork [(1, 2); (2, 1)]
         (fun _ => 100%float) 0%nat
       = Some (Return m, k2)
    /\ (k2 <= k1)%nat.
Proof.
  apply fixed_depth_methods_agree; try reflexivity.
  - apply tree_has_moves.
  - discriminate.
  - discriminate.
Defined.

Lemma search_returns_legal_move_witness :
  In (1, 2) (get_legal_moves fork (active_player fork)).
Proof.
  apply (search_returns_legal_move (patient 2 false "minimax") 1%nat fork true
           neg_inf inf 0%nat (custom_score fork_a1 Us) (1, 2) 7%nat).
  - reflexivity.
  - left. vm_compute; reflexivity.
Defined.

End Runs.
